(** * Indentation-based folding ranges

    A shallow embedding of [src/vs/editor/common/model/indentRanges.ts]:
    the [IndentRange] class with its static [deepCloneArr], and
    [computeRanges], the single backward pass over the lines of a text
    model that derives folding ranges from indentation levels and from
    optional region markers.

    JavaScript numbers that hold line numbers and indentation levels are
    integers; they are modelled by [Z].  An exception thrown by the
    source is a [Throw] result. *)

From Stdlib Require Import ZArith List String Ascii Bool Lia Sorted.
Import ListNotations.
Open Scope string_scope.
Open Scope list_scope.
Open Scope Z_scope.

(** ** Exceptions *)

(** The two exceptions the function can raise: [SyntaxError] from
    [new RegExp(...)] on a malformed pattern, and [TypeError] from a
    property access on [undefined]. *)
Inductive Error : Type := SyntaxError | TypeError.

Inductive Result (A : Type) : Type :=
| Ok (a : A)
| Throw (e : Error).
Arguments Ok {A} a.
Arguments Throw {A} e.

Definition bind {A B : Type} (c : Result A) (k : A -> Result B) : Result B :=
  match c with
  | Ok a => k a
  | Throw e => Throw e
  end.

Notation "x <- c ;; k" := (bind c (fun x => k))
  (at level 61, c at next level, right associativity).
Notation "' pat <- c ;; k" := (bind c (fun x => match x with pat => k end))
  (at level 61, pat pattern, c at next level, right associativity).

(** ** IndentRange *)

(** [marker?: boolean] is an optional constructor argument: the field is
    [undefined] ([None]) when the argument is left out. *)
Record IndentRange : Type := new_IndentRange {
  startLineNumber : Z;
  endLineNumber : Z;
  indent : Z;
  marker : option bool
}.

(** [arr[i] = v] for [i] up to the length of [arr]: the element is
    replaced, or the array grows by one when [i] is its length.  (An
    index past the length would leave holes; [deepCloneArr] assigns
    element [i] when [i] is the length of [result].) *)
Definition array_assign {A : Type} (arr : list A) (i : nat) (v : A) : list A :=
  firstn i arr ++ v :: skipn (S i) arr.

(** The loop of [deepCloneArr] at index [i], with [todo] iterations left
    before [i] reaches [len].  Reading a field of [indentRanges[i]]
    past the end would be a [TypeError]. *)
Fixpoint deepCloneArr_loop (indentRanges : list IndentRange) (todo i : nat)
    (result : list IndentRange) : Result (list IndentRange) :=
  match todo with
  | O => Ok result
  | S todo' =>
      match nth_error indentRanges i with
      | Some r =>
          deepCloneArr_loop indentRanges todo' (S i)
            (array_assign result i
               (new_IndentRange (startLineNumber r) (endLineNumber r) (indent r) None))
      | None => Throw TypeError
      end
  end.

(** [IndentRange.deepCloneArr]: the clones are built by the
    three-argument constructor call. *)
Definition deepCloneArr (indentRanges : list IndentRange) : Result (list IndentRange) :=
  deepCloneArr_loop indentRanges (List.length indentRanges) 0 [].

(** What the constructor call of [deepCloneArr] makes of a range. *)
Definition cloneOf (r : IndentRange) : IndentRange :=
  new_IndentRange (startLineNumber r) (endLineNumber r) (indent r) None.

(** ** The inputs of [computeRanges] *)

(** [FoldMarkers]; [end] is a keyword, so the fields carry a prefix. *)
Record FoldMarkers : Type := {
  markers_start : string;
  markers_end : string;
  markers_indent : option Z
}.

(** The part of [ITextModel] the function consults.  Line numbers are
    1-based. *)
Record ITextModel : Type := {
  getLineCount : Z;
  getLineContent : Z -> string;
  getIndentLevel : Z -> Z
}.

(** The contract of [getIndentLevel]: [-1] on a line that is empty or
    holds only whitespace, the indentation (at least [0]) otherwise. *)
Definition wellFormedModel (model : ITextModel) : Prop :=
  forall line, 1 <= line <= getLineCount model -> -1 <= getIndentLevel model line.

(** JavaScript truthiness of a string-or-undefined value such as [m[1]]. *)
Definition truthy (g : option string) : bool :=
  match g with
  | Some s => negb (s =? "")%string
  | None => false
  end.

Section Engine.

(** The regular-expression engine is the host's.  [RegExp_new src] is
    [new RegExp(src)], [None] standing for the [SyntaxError] of a
    malformed source; [String_match s re] is [s.match(re)], [None]
    standing for [null] and [Some g] for a match array whose first
    capture group [m[1]] is [g]. *)
Variable RegExp : Type.
Variable RegExp_new : string -> option RegExp.
Variable String_match : string -> RegExp -> option (option string).

(** [interface PreviousRegion { indent; line; marker }] *)
Record PreviousRegion : Type := {
  pr_indent : Z;
  pr_line : Z;
  pr_marker : option RegExp
}.

(** The two arrays the loop mutates.  [previousRegions] is used as a
    stack: it is kept top first, the head of the list is the source's
    [previousRegions[previousRegions.length - 1]].  [result] is kept in
    push order. *)
Record State : Type := {
  previousRegions : list PreviousRegion;
  result : list IndentRange
}.

(** The first property access on [previous]: a [TypeError] when the
    array is empty and [previous] is [undefined]. *)
Definition top (regions : list PreviousRegion) : Result PreviousRegion :=
  match regions with
  | previous :: _ => Ok previous
  | [] => Throw TypeError
  end.

(** [previous.line = line], [previous] being an alias of the top entry. *)
Definition with_line (previous : PreviousRegion) (line : Z) : PreviousRegion :=
  {| pr_indent := pr_indent previous; pr_line := line; pr_marker := pr_marker previous |}.

(** Truthiness of [previous.marker]. *)
Definition has_marker (previous : PreviousRegion) : bool :=
  match pr_marker previous with
  | Some _ => true
  | None => false
  end.

(** [do { pop; previous = top } while (previous.indent >= 0 && !previous.marker)].
    The argument is the array once the first [pop] is done. *)
Fixpoint discard_until_marker (rest : list PreviousRegion)
  : Result (list PreviousRegion) :=
  match rest with
  | [] => Throw TypeError
  | previous :: below =>
      if (0 <=? pr_indent previous) && negb (has_marker previous)
      then discard_until_marker below
      else Ok rest
  end.

(** [do { pop; previous = top } while (previous.indent > indent)]. *)
Fixpoint discard_larger_indent (indent : Z) (rest : list PreviousRegion)
  : Result (list PreviousRegion) :=
  match rest with
  | [] => Throw TypeError
  | previous :: below =>
      if indent <? pr_indent previous
      then discard_larger_indent indent below
      else Ok rest
  end.

Section Loop.

Variable model : ITextModel.
Variable offSide : bool.
Variable pattern : option RegExp.
Variable patternIndent : Z.
Variable minimumRangeSize : Z.

(** [pattern && (patternIndent === -1 || patternIndent === indent)
    && (m = model.getLineContent(line).match(pattern))] *)
Definition lineMatch (line indent : Z) : option (option string) :=
  match pattern with
  | Some re =>
      if (patternIndent =? -1) || (patternIndent =? indent)
      then String_match (getLineContent model line) re
      else None
  | None => None
  end.

(** The branch [if (m[1])]: a start marker. *)
Definition startMatch (line indent : Z) (st : State) : Result State :=
  previous <- top (previousRegions st) ;;
  regions <- (if (0 <=? pr_indent previous) && negb (has_marker previous)
              then discard_until_marker (tl (previousRegions st))
              else Ok (previousRegions st)) ;;
  previous <- top regions ;;
  if has_marker previous
  then Ok {| previousRegions :=
               {| pr_indent := indent; pr_line := line; pr_marker := None |}
               :: tl regions;
             result := result st
                       ++ [new_IndentRange line (pr_line previous) indent (Some true)] |}
  else Ok {| previousRegions := regions; result := result st |}.

(** The [else] of [if (m[1])]: an end marker. *)
Definition endMatch (line : Z) (st : State) : State :=
  {| previousRegions :=
       {| pr_indent := -2; pr_line := line; pr_marker := pattern |}
       :: previousRegions st;
     result := result st |}.

(** The branch of a line that matches no marker. *)
Definition plainLine (line indent : Z) (st : State) : Result State :=
  previous <- top (previousRegions st) ;;
  '(regions, res) <-
    (if indent <? pr_indent previous
     then
       regions <- discard_larger_indent indent (tl (previousRegions st)) ;;
       previous <- top regions ;;
       let endLineNumber := pr_line previous - 1 in
       Ok (regions,
           if minimumRangeSize <=? endLineNumber - line
           then result st ++ [new_IndentRange line endLineNumber indent None]
           else result st)
     else Ok (previousRegions st, result st)) ;;
  previous <- top regions ;;
  if pr_indent previous =? indent
  then Ok {| previousRegions := with_line previous line :: tl regions;
             result := res |}
  else Ok {| previousRegions :=
               {| pr_indent := indent; pr_line := line; pr_marker := None |}
               :: regions;
             result := res |}.

(** The body of the [for] loop at [line]. *)
Definition step (line : Z) (st : State) : Result State :=
  let indent := getIndentLevel model line in
  if indent =? -1
  then
    if offSide
    then
      previous <- top (previousRegions st) ;;
      Ok {| previousRegions := with_line previous line :: tl (previousRegions st);
            result := result st |}
    else Ok st
  else
    match lineMatch line indent with
    | Some m => if truthy m then startMatch line indent st
                else Ok (endMatch line st)
    | None => plainLine line indent st
    end.

(** [for (let line = n; line > 0; line--)] *)
Fixpoint forLines (n : nat) (st : State) : Result State :=
  match n with
  | O => Ok st
  | S k => st' <- step (Z.of_nat n) st ;; forLines k st'
  end.

(** The state on entry to the loop: an empty [result] and the
    sentinel region. *)
Definition initialState : State :=
  {| previousRegions :=
       [ {| pr_indent := -1; pr_line := getLineCount model + 1; pr_marker := None |} ];
     result := [] |}.

(** The states the loop passes through: [loopState line st] holds when
    control is at the test [line > 0] with the two arrays as in [st]. *)
Inductive loopState : Z -> State -> Prop :=
| loop_enter : loopState (getLineCount model) initialState
| loop_iterate (line : Z) (st st' : State) :
    loopState line st -> 0 < line -> step line st = Ok st' ->
    loopState (line - 1) st'.

(** The regions the [do ... while (previous.indent > indent)] loop pops
    when the body is entered at a line of level [indent]. *)
Fixpoint poppedRegions (indent : Z) (regions : list PreviousRegion)
  : list PreviousRegion :=
  match regions with
  | previous :: below =>
      if indent <? pr_indent previous
      then previous :: poppedRegions indent below
      else []
  | [] => []
  end.

(** The regions that loop leaves. *)
Fixpoint keptRegions (indent : Z) (regions : list PreviousRegion)
  : list PreviousRegion :=
  match regions with
  | previous :: below =>
      if indent <? pr_indent previous
      then keptRegions indent below
      else regions
  | [] => []
  end.

(** One range for each popped region of sufficient span, ending before
    the popped region's line and carrying the popped region's indent:
    the reading of the pop loop under which every popped region yields a
    range of its own. *)
Definition emitsRangePerPoppedRegion (line indent : Z) (st st' : State) : Prop :=
  forall p, In p (poppedRegions indent (previousRegions st)) ->
    minimumRangeSize <= pr_line p - 1 - line ->
    exists mk, In (new_IndentRange line (pr_line p - 1) (pr_indent p) mk) (result st').

(** *** Invariant of the loop *)

(** The entry pushed before the loop keeps its [indent] and its empty
    [marker]; only its [line] moves. *)
Definition is_sentinel (p : PreviousRegion) : Prop :=
  pr_indent p = -1 /\ pr_marker p = None.

Fixpoint sentinel_at_bottom (regions : list PreviousRegion) : Prop :=
  match regions with
  | [] => False
  | p :: below =>
      match below with
      | [] => is_sentinel p
      | _ :: _ => sentinel_at_bottom below
      end
  end.

(** A pending region lies below the lines still to visit; one that
    waits for its start marker sits on a line of the model. *)
Definition region_ok (next : Z) (p : PreviousRegion) : Prop :=
  next < pr_line p <= getLineCount model + 1
  /\ (pr_marker p <> None -> pr_line p <= getLineCount model).

Definition range_ok (next : Z) (r : IndentRange) : Prop :=
  next < startLineNumber r
  /\ startLineNumber r <= endLineNumber r <= getLineCount model
  /\ (marker r <> Some true -> minimumRangeSize <= endLineNumber r - startLineNumber r).

(** [next] is the line the loop visits next: every line above it has
    been handled. *)
Record Inv (next : Z) (st : State) : Prop := {
  inv_sentinel : sentinel_at_bottom (previousRegions st);
  inv_regions : Forall (region_ok next) (previousRegions st);
  inv_ranges : Forall (range_ok next) (result st);
  inv_sorted :
    StronglySorted (fun a b => startLineNumber a < startLineNumber b)
                   (rev (result st))
}.

End Loop.

(** The source of the pattern: [`(${markers.start})|(?:${markers.end})`]. *)
Definition patternSource (markers : FoldMarkers) : string :=
  ("(" ++ markers_start markers ++ ")|(?:" ++ markers_end markers ++ ")")%string.

(** [pattern] and [patternIndent] as the function's prologue sets them. *)
Definition compileMarkers (markers : option FoldMarkers)
  : Result (option RegExp * Z) :=
  match markers with
  | Some mk =>
      match RegExp_new (patternSource mk) with
      | Some re => Ok (Some re, match markers_indent mk with
                                | Some i => i
                                | None => -1
                                end)
      | None => Throw SyntaxError
      end
  | None => Ok (None, -1)
  end.

(** [minimumRangeSize: number = 1] *)
Definition defaultTo1 (minimumRangeSize : option Z) : Z :=
  match minimumRangeSize with
  | Some n => n
  | None => 1
  end.

Definition computeRanges (model : ITextModel) (offSide : bool)
    (markers : option FoldMarkers) (minimumRangeSize : option Z)
  : Result (list IndentRange) :=
  '(pattern, patternIndent) <- compileMarkers markers ;;
  st <- forLines model offSide pattern patternIndent (defaultTo1 minimumRangeSize)
          (Z.to_nat (getLineCount model)) (initialState model) ;;
  Ok (rev (result st)).

End Engine.

Arguments pr_indent {RegExp} _.
Arguments pr_line {RegExp} _.
Arguments pr_marker {RegExp} _.
Arguments previousRegions {RegExp} _.
Arguments result {RegExp} _.
Arguments top {RegExp} regions.
Arguments with_line {RegExp} previous line.
Arguments has_marker {RegExp} previous.
Arguments discard_until_marker {RegExp} rest.
Arguments discard_larger_indent {RegExp} indent rest.
Arguments lineMatch {RegExp} String_match model pattern patternIndent line indent.
Arguments startMatch {RegExp} line indent st.
Arguments endMatch {RegExp} pattern line st.
Arguments plainLine {RegExp} minimumRangeSize line indent st.
Arguments step {RegExp} String_match model offSide pattern patternIndent
  minimumRangeSize line st.
Arguments forLines {RegExp} String_match model offSide pattern patternIndent
  minimumRangeSize n st.
Arguments initialState {RegExp} model.
Arguments loopState {RegExp} String_match model offSide pattern patternIndent
  minimumRangeSize _ _.
Arguments poppedRegions {RegExp} indent regions.
Arguments keptRegions {RegExp} indent regions.
Arguments emitsRangePerPoppedRegion {RegExp} minimumRangeSize line indent st st'.
Arguments is_sentinel {RegExp} p.
Arguments sentinel_at_bottom {RegExp} regions.
Arguments region_ok {RegExp} model next p.
Arguments Inv {RegExp} model minimumRangeSize next st.
Arguments compileMarkers {RegExp} RegExp_new markers.
Arguments computeRanges {RegExp} RegExp_new String_match model offSide markers
  minimumRangeSize.

(** ** A concrete engine for literal markers

    The patterns [computeRanges] builds from two marker strings without
    metacharacters have the shape [(start)|(?:end)] with both
    alternatives literal.  For them [new RegExp] and [String.match] are
    the following: the leftmost position of the subject where one of the
    two strings begins, the first alternative tried first; [m[1]] is the
    start string when the first alternative matched and [undefined]
    otherwise.  The engine is exact on this fragment and is used on it
    only: for a marker string that holds a metacharacter it declines to
    compile, which says nothing of what the host does with it. *)

Record LiteralRegExp : Type := {
  alt_start : string;
  alt_end : string
}.

Definition metachar (c : ascii) : bool :=
  existsb (Ascii.eqb c) (list_ascii_of_string "\^$.*+?()[]{}|").

Fixpoint span_literal (s : string) : string * string :=
  match s with
  | String c rest =>
      if metachar c then (EmptyString, s)
      else let (a, r) := span_literal rest in (String c a, r)
  | EmptyString => (EmptyString, EmptyString)
  end.

Fixpoint strip_prefix (p s : string) : option string :=
  match p, s with
  | EmptyString, _ => Some s
  | String a p', String b s' => if Ascii.eqb a b then strip_prefix p' s' else None
  | String _ _, EmptyString => None
  end.

Definition literal_RegExp_new (src : string) : option LiteralRegExp :=
  match strip_prefix "(" src with
  | Some s1 =>
      let (a, r1) := span_literal s1 in
      match strip_prefix ")|(?:" r1 with
      | Some s2 =>
          let (b, r2) := span_literal s2 in
          if (r2 =? ")")%string then Some {| alt_start := a; alt_end := b |} else None
      | None => None
      end
  | None => None
  end.

Fixpoint literal_match (content : string) (re : LiteralRegExp)
  : option (option string) :=
  if prefix (alt_start re) content then Some (Some (alt_start re))
  else if prefix (alt_end re) content then Some None
  else match content with
       | String _ rest => literal_match rest re
       | EmptyString => None
       end.

(** [computeRanges] on the literal engine. *)
Definition computeRangesLiteral :=
  computeRanges literal_RegExp_new literal_match.

(** ** Text models for concrete runs *)

(** A model given by its lines, each with its indent level and its
    content. *)
Definition linesModel (lines : list (Z * string)) : ITextModel :=
  {| getLineCount := Z.of_nat (List.length lines);
     getLineContent := fun line => snd (nth (Z.to_nat (line - 1)) lines (-1, EmptyString));
     getIndentLevel := fun line => fst (nth (Z.to_nat (line - 1)) lines (-1, EmptyString)) |}.

(** A model of which only the indent levels matter. *)
Definition indentsModel (indents : list Z) : ITextModel :=
  linesModel (map (fun i => (i, EmptyString)) indents).

(** [model] with the indent level of [line] replaced. *)
Definition setIndentLevel (model : ITextModel) (line indent : Z) : ITextModel :=
  {| getLineCount := getLineCount model;
     getLineContent := getLineContent model;
     getIndentLevel := fun l => if l =? line then indent else getIndentLevel model l |}.

Definition regionMarkers : FoldMarkers :=
  {| markers_start := "#region"; markers_end := "#endregion"; markers_indent := None |}.

(** A pending region without marker, on the literal engine. *)
Definition region (indent line : Z) : PreviousRegion LiteralRegExp :=
  {| pr_indent := indent; pr_line := line; pr_marker := None |}.

(** [function f() {], [if (x) {], [return 1;], [}], [}]: two nested
    blocks. *)
Definition nestedBlocks : ITextModel := indentsModel [0; 1; 2; 1; 0].

(** A header line followed by two blocks of decreasing indent. *)
Definition twoDedents : ITextModel := indentsModel [0; 2; 2; 1; 1].

(** The arrays of the run on [twoDedents] when line 1 is about to be
    visited. *)
Definition twoDedentsBeforeLine1 : State LiteralRegExp :=
  {| previousRegions := [region 2 2; region 1 4; region (-1) 6]; result := [] |}.

(** A block at indent 1 on lines 2 to 4 whose line 3 is blank. *)
Definition blockWithBlankLine : ITextModel := indentsModel [0; 1; -1; 1; 0].

Definition regionBuffer : ITextModel :=
  linesModel [(0, "#region"); (0, "code"); (0, "#endregion")].

Definition emptyRegionBuffer : ITextModel :=
  linesModel [(0, "#region"); (0, "#endregion")].

(** The compiled pattern of [regionMarkers]. *)
Definition regionPattern : LiteralRegExp :=
  {| alt_start := "#region"; alt_end := "#endregion" |}.

(** The arrays of the run on [regionBuffer] when line 1 is about to be
    visited: the end marker of line 3 is pending below the region of
    the line of code. *)
Definition regionBeforeLine1 : State LiteralRegExp :=
  {| previousRegions :=
       [ region 0 2;
         {| pr_indent := -2; pr_line := 3; pr_marker := Some regionPattern |};
         region (-1) 4 ];
     result := [] |}.

(** The arrays of the run on [emptyRegionBuffer] when line 1 is about to
    be visited: the end marker of line 2 is pending. *)
Definition emptyRegionBeforeLine1 : State LiteralRegExp :=
  {| previousRegions :=
       [ {| pr_indent := -2; pr_line := 2; pr_marker := Some regionPattern |};
         region (-1) 3 ];
     result := [] |}.

(** ** The cases of the loop body

    The body of the loop, read as a relation between the arrays before
    and after a line is visited: one constructor for each path through
    the body that ends without an exception. *)

Section Cases.

Variable RegExp : Type.
Variable String_match : string -> RegExp -> option (option string).
Variable model : ITextModel.
Variable offSide : bool.
Variable pattern : option RegExp.
Variable patternIndent : Z.
Variable minimumRangeSize : Z.

(** Lines 102-107: the top region takes the line when it has the line's
    indent, a new region is pushed otherwise. *)
Definition settle (line indent : Z) (q : PreviousRegion RegExp)
    (rest : list (PreviousRegion RegExp)) : list (PreviousRegion RegExp) :=
  if pr_indent q =? indent
  then with_line q line :: rest
  else {| pr_indent := indent; pr_line := line; pr_marker := None |} :: q :: rest.

(** Lines 97-100: the range of a line whose pops stopped at [q]. *)
Definition emitted (line indent : Z) (q : PreviousRegion RegExp) : list IndentRange :=
  if minimumRangeSize <=? pr_line q - 1 - line
  then [new_IndentRange line (pr_line q - 1) indent None]
  else [].

Inductive bodyCase (line : Z) (st : State RegExp) : State RegExp -> Prop :=
| case_blank_offSide (p : PreviousRegion RegExp) below :
    getIndentLevel model line = -1 -> offSide = true ->
    previousRegions st = p :: below ->
    bodyCase line st
      {| previousRegions := with_line p line :: below; result := result st |}
| case_blank_skipped :
    getIndentLevel model line = -1 -> offSide = false ->
    bodyCase line st st
| case_end_marker (m : option string) :
    getIndentLevel model line <> -1 ->
    lineMatch String_match model pattern patternIndent line (getIndentLevel model line)
    = Some m ->
    truthy m = false ->
    bodyCase line st (endMatch pattern line st)
| case_start_marker_closes (m : option string) popped (q : PreviousRegion RegExp) rest :
    getIndentLevel model line <> -1 ->
    lineMatch String_match model pattern patternIndent line (getIndentLevel model line)
    = Some m ->
    truthy m = true ->
    previousRegions st = popped ++ q :: rest ->
    Forall (fun p => 0 <= pr_indent p /\ pr_marker p = None) popped ->
    pr_marker q <> None ->
    bodyCase line st
      {| previousRegions :=
           {| pr_indent := getIndentLevel model line; pr_line := line; pr_marker := None |}
           :: rest;
         result := result st
                   ++ [new_IndentRange line (pr_line q) (getIndentLevel model line)
                         (Some true)] |}
| case_start_marker_unmatched (m : option string) popped (q : PreviousRegion RegExp) rest :
    getIndentLevel model line <> -1 ->
    lineMatch String_match model pattern patternIndent line (getIndentLevel model line)
    = Some m ->
    truthy m = true ->
    previousRegions st = popped ++ q :: rest ->
    Forall (fun p => 0 <= pr_indent p /\ pr_marker p = None) popped ->
    pr_indent q < 0 -> pr_marker q = None ->
    bodyCase line st {| previousRegions := q :: rest; result := result st |}
| case_plain_no_pop (q : PreviousRegion RegExp) rest :
    getIndentLevel model line <> -1 ->
    lineMatch String_match model pattern patternIndent line (getIndentLevel model line)
    = None ->
    previousRegions st = q :: rest ->
    pr_indent q <= getIndentLevel model line ->
    bodyCase line st
      {| previousRegions := settle line (getIndentLevel model line) q rest;
         result := result st |}
| case_plain_pop (p : PreviousRegion RegExp) popped (q : PreviousRegion RegExp) rest :
    getIndentLevel model line <> -1 ->
    lineMatch String_match model pattern patternIndent line (getIndentLevel model line)
    = None ->
    previousRegions st = (p :: popped) ++ q :: rest ->
    Forall (fun p => getIndentLevel model line < pr_indent p) (p :: popped) ->
    pr_indent q <= getIndentLevel model line ->
    bodyCase line st
      {| previousRegions := settle line (getIndentLevel model line) q rest;
         result := result st ++ emitted line (getIndentLevel model line) q |}.

End Cases.

Arguments settle {RegExp} line indent q rest.
Arguments emitted {RegExp} minimumRangeSize line indent q.
Arguments bodyCase {RegExp} String_match model offSide pattern patternIndent
  minimumRangeSize line st _.

(** ** Predicates on the arrays *)

Section Predicates.

Variable RegExp : Type.
Variable model : ITextModel.

(** The lines strictly between [lo] and [hi] are blank. *)
Definition blankBetween (lo hi : Z) : Prop :=
  forall l, lo < l < hi -> getIndentLevel model l = -1.

(** The pending regions, top first, sit on increasing lines below the
    lines still to visit, and only a region of indent [-2] waits for a
    start marker. *)
Definition stackShape (next : Z) (regions : list (PreviousRegion RegExp)) : Prop :=
  StronglySorted (fun a b => pr_line a < pr_line b) regions
  /\ Forall (fun e => next < pr_line e) regions
  /\ Forall (fun e => pr_marker e <> None -> pr_indent e = -2) regions.

(** Two ranges, the first starting before the second, are disjoint or
    the second lies within the first. *)
Definition nestedOrDisjoint (r1 r2 : IndentRange) : Prop :=
  endLineNumber r1 < startLineNumber r2 \/ endLineNumber r2 <= endLineNumber r1.

(** A pending region keeps clear of a finished range: its line is at or
    above the range's start (strictly above when it waits for a start
    marker) or below the range's end. *)
Definition clearOf (e : PreviousRegion RegExp) (r : IndentRange) : Prop :=
  (pr_line e <= startLineNumber r
   /\ (pr_marker e <> None -> pr_line e < startLineNumber r))
  \/ endLineNumber r < pr_line e.

(** The ranges are pairwise nested or disjoint and the pending
    regions keep clear of them. *)
Definition nesting (next : Z) (st : State RegExp) : Prop :=
  stackShape next (previousRegions st)
  /\ Forall (fun r => next < startLineNumber r) (result st)
  /\ (forall r e, In r (result st) -> In e (previousRegions st) -> clearOf e r)
  /\ (forall r1 r2, In r1 (result st) -> In r2 (result st) ->
        startLineNumber r1 < startLineNumber r2 -> nestedOrDisjoint r1 r2).

(** Between the line of a pending region and the line of the region
    below it, every line is blank or at least as deep as the region,
    and one line has the region's indent. *)
Fixpoint blocksBetween (regions : list (PreviousRegion RegExp)) : Prop :=
  match regions with
  | u :: below =>
      match below with
      | w :: _ =>
          (forall l, pr_line u <= l < pr_line w ->
                     getIndentLevel model l = -1 \/ pr_indent u <= getIndentLevel model l)
          /\ (exists l, pr_line u <= l < pr_line w /\ getIndentLevel model l = pr_indent u)
          /\ blocksBetween below
      | [] => True
      end
  | [] => True
  end.

(** A range covers a block: a deeper line follows its start, and every
    line after its start is blank or deeper than the range. *)
Definition coversBlock (r : IndentRange) : Prop :=
  (exists l, startLineNumber r < l <= endLineNumber r /\ indent r < getIndentLevel model l)
  /\ (forall l, startLineNumber r < l <= endLineNumber r ->
                getIndentLevel model l = -1 \/ indent r < getIndentLevel model l).

(** Without markers: the regions delimit blocks, the lines between the
    next line to visit and the top region are blank, and every range
    covers a block. *)
Definition blocks (next : Z) (st : State RegExp) : Prop :=
  stackShape next (previousRegions st)
  /\ blocksBetween (previousRegions st)
  /\ (forall e rest, previousRegions st = e :: rest -> blankBetween next (pr_line e))
  /\ Forall coversBlock (result st).

(** A pending region of the run with [offSide] against the region of the
    run without: the same indent, a line no lower, only blank lines in
    between. *)
Definition aboveBlankLines (e e' : PreviousRegion RegExp) : Prop :=
  pr_indent e = pr_indent e'
  /\ pr_line e <= pr_line e'
  /\ forall l, pr_line e <= l < pr_line e' -> getIndentLevel model l = -1.

(** A range against the same range with blank lines cut off its end. *)
Definition trimsBlankLines (r r' : IndentRange) : Prop :=
  startLineNumber r = startLineNumber r'
  /\ indent r = indent r'
  /\ marker r = marker r'
  /\ endLineNumber r <= endLineNumber r'
  /\ forall l, endLineNumber r < l <= endLineNumber r' -> getIndentLevel model l = -1.

(** [line] is a block head: it is not blank and the next line that is
    not blank is deeper. *)
Definition blockHead (line : Z) : Prop :=
  getIndentLevel model line <> -1
  /\ exists l, line < l <= getLineCount model
               /\ getIndentLevel model line < getIndentLevel model l
               /\ blankBetween line l.

End Predicates.

Arguments stackShape {RegExp} next regions.
Arguments clearOf {RegExp} e r.
Arguments nesting {RegExp} next st.
Arguments aboveBlankLines {RegExp} model e e'.
Arguments blocks {RegExp} model next st.
Arguments blocksBetween {RegExp} model regions.

(** The size test of line 98, which ranges from markers do not take. *)
Definition keepBySize (minimumRangeSize : Z) (r : IndentRange) : bool :=
  match marker r with
  | Some true => true
  | _ => minimumRangeSize <=? endLineNumber r - startLineNumber r
  end.

Definition Result_map {A B : Type} (f : A -> B) (c : Result A) : Result B :=
  match c with
  | Ok a => Ok (f a)
  | Throw e => Throw e
  end.

(** * Properties *)

Lemma bind_Ok {A B : Type} (c : Result A) (k : A -> Result B) (b : B) :
  bind c k = Ok b -> exists a, c = Ok a /\ k a = Ok b.
Proof.
  destruct c as [a | e]; simpl; intros H.
  - exists a. split; [reflexivity | exact H].
  - discriminate H.
Qed.

Tactic Notation "bind_inv" hyp(H) "as" ident(a) ident(Ha) :=
  apply bind_Ok in H; destruct H as (a & Ha & H).

(** ** [deepCloneArr] *)

Lemma array_assign_at_end {A : Type} (arr : list A) (v : A) :
  array_assign arr (List.length arr) v = arr ++ [v].
Proof.
  unfold array_assign. rewrite firstn_all.
  rewrite skipn_all2 by (simpl; lia). reflexivity.
Qed.

Lemma deepCloneArr_loop_spec (done todo : list IndentRange) :
  deepCloneArr_loop (done ++ todo) (List.length todo) (List.length done) (map cloneOf done)
  = Ok (map cloneOf (done ++ todo)).
Proof.
  revert done. induction todo as [| r todo IH]; intros done.
  - rewrite app_nil_r. reflexivity.
  - cbn [List.length deepCloneArr_loop].
    rewrite nth_error_app2 by lia. rewrite Nat.sub_diag. cbn [nth_error].
    replace (List.length done) with (List.length (map cloneOf done)) at 2
      by apply length_map.
    rewrite array_assign_at_end.
    specialize (IH (done ++ [r])).
    rewrite <- app_assoc in IH. cbn [app] in IH.
    rewrite length_app in IH. cbn [List.length] in IH.
    rewrite Nat.add_1_r in IH. rewrite map_app in IH. exact IH.
Qed.

Lemma deepCloneArr_map (indentRanges : list IndentRange) :
  deepCloneArr indentRanges = Ok (map cloneOf indentRanges).
Proof. exact (deepCloneArr_loop_spec [] indentRanges). Qed.

Section Correctness.

Variable RegExp : Type.
Variable RegExp_new : string -> option RegExp.
Variable String_match : string -> RegExp -> option (option string).

Implicit Types (p q : PreviousRegion RegExp) (regions rest : list (PreviousRegion RegExp)).
Implicit Types (st : State RegExp).

(** ** The two pop loops *)

Lemma top_Ok regions p : top regions = Ok p -> exists below, regions = p :: below.
Proof.
  destruct regions as [| q below]; simpl; intros H; [discriminate H |].
  injection H as ->. now exists below.
Qed.

Lemma sentinel_at_bottom_cons p regions :
  regions <> [] -> sentinel_at_bottom (p :: regions) <-> sentinel_at_bottom regions.
Proof.
  destruct regions as [| q below]; [congruence |]. intros _. simpl. tauto.
Qed.

Lemma sentinel_at_bottom_nonempty regions : sentinel_at_bottom regions -> regions <> [].
Proof. destruct regions; simpl; [tauto | discriminate]. Qed.

Lemma sentinel_at_bottom_suffix popped regions :
  regions <> [] -> sentinel_at_bottom (popped ++ regions) -> sentinel_at_bottom regions.
Proof.
  intros Hne. induction popped as [| p popped IH]; simpl app; [tauto |].
  intros H. apply IH. refine (proj1 (sentinel_at_bottom_cons p _ _) H).
  destruct popped; simpl; [exact Hne | discriminate].
Qed.

Lemma discard_until_marker_suffix rest regions :
  discard_until_marker rest = Ok regions ->
  exists popped, rest = popped ++ regions /\ regions <> [].
Proof.
  induction rest as [| p below IH]; simpl; [discriminate |].
  destruct ((0 <=? pr_indent p) && negb (has_marker p)).
  - intros H. destruct (IH H) as (popped & -> & Hne).
    exists (p :: popped). split; [reflexivity | exact Hne].
  - intros [= <-]. exists []. split; [reflexivity | discriminate].
Qed.

Lemma discard_until_marker_stops rest regions q below :
  discard_until_marker rest = Ok regions -> regions = q :: below ->
  pr_indent q < 0 \/ pr_marker q <> None.
Proof.
  induction rest as [| p below' IH]; simpl; [discriminate |].
  destruct ((0 <=? pr_indent p) && negb (has_marker p)) eqn:E.
  - exact IH.
  - intros [= <-] [= <- <-].
    apply andb_false_iff in E. destruct E as [E | E].
    + left. lia.
    + right. unfold has_marker in E. destruct (pr_marker p); [discriminate | discriminate E].
Qed.

(** The marker loop never runs past the sentinel, whose indent is
    negative. *)
Lemma discard_until_marker_total rest :
  sentinel_at_bottom rest -> exists regions, discard_until_marker rest = Ok regions.
Proof.
  induction rest as [| p below IH]; simpl; [tauto |].
  intros H. destruct ((0 <=? pr_indent p) && negb (has_marker p)) eqn:E.
  - destruct below as [| q below'].
    + destruct H as [Hi _]. apply andb_true_iff in E. lia.
    + apply IH. exact H.
  - eexists. reflexivity.
Qed.

Lemma discard_larger_indent_spec indent rest regions :
  discard_larger_indent indent rest = Ok regions ->
  regions = keptRegions indent rest
  /\ rest = poppedRegions indent rest ++ regions
  /\ regions <> [].
Proof.
  induction rest as [| p below IH]; simpl; [discriminate |].
  destruct (indent <? pr_indent p).
  - intros H. destruct (IH H) as (-> & Hs & Hne).
    repeat split; [| exact Hne]. simpl. now rewrite <- Hs.
  - intros [= <-]. repeat split. discriminate.
Qed.

Lemma discard_larger_indent_stops indent rest regions q below :
  discard_larger_indent indent rest = Ok regions -> regions = q :: below ->
  pr_indent q <= indent.
Proof.
  induction rest as [| p below' IH]; simpl; [discriminate |].
  destruct (indent <? pr_indent p) eqn:E.
  - exact IH.
  - intros [= <-] [= <- <-]. lia.
Qed.

(** The indent loop never runs past the sentinel when the line's level
    is not below [-1]. *)
Lemma discard_larger_indent_total indent rest :
  -1 <= indent -> sentinel_at_bottom rest ->
  exists regions, discard_larger_indent indent rest = Ok regions.
Proof.
  intros Hi. induction rest as [| p below IH]; simpl; [tauto |].
  intros H. destruct (indent <? pr_indent p) eqn:E.
  - destruct below as [| q below'].
    + destruct H as [Hp _]. lia.
    + apply IH. exact H.
  - eexists. reflexivity.
Qed.

(** ** The invariant is kept by the loop body *)

Section LoopFacts.

Variable model : ITextModel.
Variable offSide : bool.
Variable pattern : option RegExp.
Variable patternIndent : Z.
Variable minimumRangeSize : Z.

Local Abbreviation Invariant := (@Inv RegExp model minimumRangeSize).
Local Abbreviation body :=
  (step String_match model offSide pattern patternIndent minimumRangeSize).

Lemma region_ok_weaken next next' p :
  next' <= next -> region_ok model next p -> region_ok model next' p.
Proof. unfold region_ok. intros Hle [Hl Hm]. split; [lia | exact Hm]. Qed.

Lemma range_ok_weaken next next' r :
  next' <= next ->
  range_ok model minimumRangeSize next r -> range_ok model minimumRangeSize next' r.
Proof. unfold range_ok. intros Hle (Hs & Hb & Hm). repeat split; try lia. exact Hm. Qed.

Lemma regions_ok_weaken next next' regions :
  next' <= next ->
  Forall (region_ok model next) regions -> Forall (region_ok model next') regions.
Proof. intros Hle. apply Forall_impl. intros p. now apply region_ok_weaken. Qed.

Lemma ranges_ok_weaken next next' (res : list IndentRange) :
  next' <= next ->
  Forall (range_ok model minimumRangeSize next) res ->
  Forall (range_ok model minimumRangeSize next') res.
Proof. intros Hle. apply Forall_impl. intros r. now apply range_ok_weaken. Qed.

Lemma region_ok_fresh line mk :
  1 <= line <= getLineCount model ->
  region_ok model (line - 1) {| pr_indent := mk; pr_line := line; pr_marker := pattern |}.
Proof. unfold region_ok. simpl. intros H. split; [lia | intros _; lia]. Qed.

Lemma region_ok_with_line line p :
  1 <= line <= getLineCount model ->
  region_ok model (line - 1) (with_line p line).
Proof. unfold region_ok. simpl. intros H. split; [lia | intros _; lia]. Qed.

(** Pushing the range that starts at the line being visited keeps the
    ranges well formed and the future result sorted. *)
Lemma push_range_ok line (res : list IndentRange) (r : IndentRange) :
  Forall (range_ok model minimumRangeSize line) res ->
  StronglySorted (fun a b => startLineNumber a < startLineNumber b) (rev res) ->
  range_ok model minimumRangeSize (line - 1) r ->
  startLineNumber r = line ->
  Forall (range_ok model minimumRangeSize (line - 1)) (res ++ [r])
  /\ StronglySorted (fun a b => startLineNumber a < startLineNumber b)
                    (rev (res ++ [r])).
Proof.
  intros Hres Hsorted Hr Hstart. split.
  - apply Forall_app. split.
    + apply ranges_ok_weaken with (next := line); [lia | exact Hres].
    + constructor; [exact Hr | constructor].
  - rewrite rev_app_distr. simpl. constructor; [exact Hsorted |].
    apply Forall_rev. revert Hres. apply Forall_impl.
    intros b (Hb & _). lia.
Qed.

Lemma Inv_suffix next st popped regions :
  Invariant next st -> previousRegions st = popped ++ regions -> regions <> [] ->
  sentinel_at_bottom regions /\ Forall (region_ok model next) regions.
Proof.
  intros [Hs Hr _ _] Heq Hne. rewrite Heq in Hs, Hr. split.
  - now apply sentinel_at_bottom_suffix with (popped := popped).
  - apply Forall_app in Hr. tauto.
Qed.

Lemma blank_Inv line st st' :
  1 <= line <= getLineCount model ->
  Invariant line st ->
  (if offSide
   then previous <- top (previousRegions st) ;;
        Ok {| previousRegions := with_line previous line :: tl (previousRegions st);
              result := result st |}
   else Ok st) = Ok st' ->
  Invariant (line - 1) st'.
Proof.
  intros Hline [Hs Hr Hres Hsorted] H. destruct offSide.
  - bind_inv H as p Hp. apply top_Ok in Hp. destruct Hp as (below & Heq).
    injection H as <-. rewrite Heq in *. simpl. constructor; simpl.
    + destruct below; simpl in *; [exact Hs | exact Hs].
    + inversion Hr; subst. constructor.
      * now apply region_ok_with_line.
      * apply regions_ok_weaken with (next := line); [lia | assumption].
    + apply ranges_ok_weaken with (next := line); [lia | exact Hres].
    + exact Hsorted.
  - injection H as <-. constructor.
    + exact Hs.
    + apply regions_ok_weaken with (next := line); [lia | exact Hr].
    + apply ranges_ok_weaken with (next := line); [lia | exact Hres].
    + exact Hsorted.
Qed.

Lemma endMatch_Inv line st :
  1 <= line <= getLineCount model ->
  Invariant line st -> Invariant (line - 1) (endMatch pattern line st).
Proof.
  intros Hline [Hs Hr Hres Hsorted]. constructor; simpl.
  - apply sentinel_at_bottom_cons; [| exact Hs].
    now apply sentinel_at_bottom_nonempty.
  - constructor.
    + now apply region_ok_fresh.
    + apply regions_ok_weaken with (next := line); [lia | exact Hr].
  - apply ranges_ok_weaken with (next := line); [lia | exact Hres].
  - exact Hsorted.
Qed.

Lemma startMatch_Inv line indent st st' :
  1 <= line <= getLineCount model ->
  Invariant line st -> startMatch line indent st = Ok st' ->
  Invariant (line - 1) st'.
Proof.
  intros Hline HI H. unfold startMatch in H.
  bind_inv H as p Hp. apply top_Ok in Hp. destruct Hp as (below & Heq).
  bind_inv H as regions Hregions.
  assert (Hsuf : exists popped, previousRegions st = popped ++ regions /\ regions <> []).
  { destruct ((0 <=? pr_indent p) && negb (has_marker p)).
    - rewrite Heq in Hregions. simpl in Hregions.
      apply discard_until_marker_suffix in Hregions.
      destruct Hregions as (popped & -> & Hne).
      exists (p :: popped). rewrite Heq. split; [reflexivity | exact Hne].
    - injection Hregions as <-. exists []. split; [reflexivity |].
      rewrite Heq. discriminate. }
  destruct Hsuf as (popped & Hsuf & Hne).
  destruct (Inv_suffix _ _ _ _ HI Hsuf Hne) as (Hs & Hr).
  destruct HI as [_ _ Hres Hsorted].
  bind_inv H as q Htop. apply top_Ok in Htop. destruct Htop as (below1 & ->).
  unfold has_marker in H.
  destruct (pr_marker q) as [re |] eqn:Hq.
  - injection H as <-. simpl.
    inversion Hr as [| ? ? [Hql Hqm] Hbelow]; subst.
    assert (Hqn : pr_line q <= getLineCount model).
    { apply Hqm. congruence. }
    destruct (push_range_ok line (result st)
                (new_IndentRange line (pr_line q) indent (Some true)))
      as (Hres' & Hsorted'); try assumption.
    { unfold range_ok. simpl. repeat split; try lia. congruence. }
    { reflexivity. }
    constructor; simpl; try assumption.
    + destruct below1 as [| q' below1].
      * destruct Hs as [_ Hnone]. congruence.
      * simpl in Hs. exact Hs.
    + constructor.
      * unfold region_ok. simpl. split; [lia | congruence].
      * apply regions_ok_weaken with (next := line); [lia | exact Hbelow].
  - injection H as <-. constructor; simpl.
    + exact Hs.
    + apply regions_ok_weaken with (next := line); [lia | exact Hr].
    + apply ranges_ok_weaken with (next := line); [lia | exact Hres].
    + exact Hsorted.
Qed.

Lemma plainLine_Inv line indent st st' :
  1 <= line <= getLineCount model ->
  Invariant line st -> plainLine minimumRangeSize line indent st = Ok st' ->
  Invariant (line - 1) st'.
Proof.
  intros Hline HI H. unfold plainLine in H.
  bind_inv H as p Hp. apply top_Ok in Hp. destruct Hp as (below & Heq).
  bind_inv H as pair Hpair. destruct pair as [regions res].
  assert (Hmid : (exists popped, previousRegions st = popped ++ regions /\ regions <> [])
                 /\ Forall (range_ok model minimumRangeSize (line - 1)) res
                 /\ StronglySorted (fun a b => startLineNumber a < startLineNumber b)
                                   (rev res)).
  { destruct (indent <? pr_indent p).
    - bind_inv Hpair as regions' Hregions. rewrite Heq in Hregions. simpl in Hregions.
      apply discard_larger_indent_spec in Hregions.
      destruct Hregions as (_ & Hsplit & Hne).
      bind_inv Hpair as q Hq. apply top_Ok in Hq. destruct Hq as (below' & Hq).
      injection Hpair as <- <-.
      assert (Hsuf : previousRegions st = (p :: poppedRegions indent below) ++ regions').
      { rewrite Heq. simpl. now rewrite <- Hsplit. }
      split; [now exists (p :: poppedRegions indent below) |].
      destruct (Inv_suffix _ _ _ _ HI Hsuf Hne) as (_ & Hr).
      destruct HI as [_ _ Hres Hsorted].
      rewrite Hq in Hr. inversion Hr as [| ? ? [Hql _] _]; subst.
      destruct (minimumRangeSize <=? pr_line q - 1 - line) eqn:Hmin.
      + apply push_range_ok; try assumption; [| reflexivity].
        unfold range_ok. simpl. repeat split; try lia.
      + split; [| exact Hsorted].
        apply ranges_ok_weaken with (next := line); [lia | exact Hres].
    - injection Hpair as <- <-. destruct HI as [_ _ Hres Hsorted]. split.
      + exists []. split; [reflexivity |]. rewrite Heq. discriminate.
      + split; [| exact Hsorted].
        apply ranges_ok_weaken with (next := line); [lia | exact Hres]. }
  destruct Hmid as ((popped & Hsuf & Hne) & Hres & Hsorted).
  destruct (Inv_suffix _ _ _ _ HI Hsuf Hne) as (Hs & Hr).
  bind_inv H as q Hq. apply top_Ok in Hq. destruct Hq as (below' & ->).
  destruct (pr_indent q =? indent).
  - injection H as <-. constructor; simpl; try assumption.
    inversion Hr; subst. constructor.
    + now apply region_ok_with_line.
    + apply regions_ok_weaken with (next := line); [lia | assumption].
  - injection H as <-. constructor; simpl; try assumption.
    constructor.
    + unfold region_ok. simpl. split; [lia | congruence].
    + apply regions_ok_weaken with (next := line); [lia | exact Hr].
Qed.

Lemma step_Inv line st st' :
  1 <= line <= getLineCount model ->
  Invariant line st -> body line st = Ok st' -> Invariant (line - 1) st'.
Proof.
  intros Hline HI H. unfold step in H.
  destruct (getIndentLevel model line =? -1).
  - now apply blank_Inv with (st := st).
  - destruct (lineMatch String_match model pattern patternIndent line
                (getIndentLevel model line)) as [m |].
    + destruct (truthy m).
      * now apply startMatch_Inv with (indent := getIndentLevel model line) (st := st).
      * injection H as <-. now apply endMatch_Inv.
    + now apply plainLine_Inv with (indent := getIndentLevel model line) (st := st).
Qed.

Lemma initialState_Inv :
  0 <= getLineCount model -> Invariant (getLineCount model) (initialState model).
Proof.
  intros H. constructor; simpl.
  - split; reflexivity.
  - constructor; [| constructor]. unfold region_ok. simpl. split; [lia | congruence].
  - constructor.
  - constructor.
Qed.

Lemma forLines_Inv n st st' :
  Z.of_nat n <= getLineCount model ->
  Invariant (Z.of_nat n) st ->
  forLines String_match model offSide pattern patternIndent minimumRangeSize n st = Ok st' ->
  Invariant 0 st'.
Proof.
  revert st. induction n as [| k IH]; intros st Hn HI H.
  - simpl in H. injection H as <-. exact HI.
  - cbn [forLines] in H. bind_inv H as st1 Hstep.
    apply (IH st1); [lia | | exact H].
    replace (Z.of_nat k) with (Z.of_nat (S k) - 1) by lia.
    apply step_Inv with (st := st); [lia | exact HI | exact Hstep].
Qed.

(** The function's loop ends in a state the relation reaches. *)
Lemma forLines_loopState n st st' :
  loopState String_match model offSide pattern patternIndent minimumRangeSize
            (Z.of_nat n) st ->
  forLines String_match model offSide pattern patternIndent minimumRangeSize n st = Ok st' ->
  loopState String_match model offSide pattern patternIndent minimumRangeSize 0 st'.
Proof.
  revert st. induction n as [| k IH]; intros st Hst H.
  - simpl in H. injection H as <-. exact Hst.
  - cbn [forLines] in H. bind_inv H as st1 Hstep.
    apply (IH st1); [| exact H].
    replace (Z.of_nat k) with (Z.of_nat (S k) - 1) by lia.
    apply loop_iterate with (st := st); [exact Hst | lia | exact Hstep].
Qed.

(** ** The loop body does not throw on a well-formed model *)

Lemma step_total line st :
  -1 <= getIndentLevel model line ->
  sentinel_at_bottom (previousRegions st) ->
  exists st', body line st = Ok st'.
Proof.
  intros Hwf Hs. unfold step.
  destruct (previousRegions st) as [| p below] eqn:Heq; [simpl in Hs; tauto |].
  destruct (getIndentLevel model line =? -1) eqn:Hblank.
  - destruct offSide; simpl; eexists; reflexivity.
  - set (indent := getIndentLevel model line) in *.
    assert (Hge : 0 <= indent) by lia.
    destruct (lineMatch String_match model pattern patternIndent line indent) as [m |].
    + destruct (truthy m); [| eexists; reflexivity].
      unfold startMatch. rewrite Heq. simpl.
      destruct ((0 <=? pr_indent p) && negb (has_marker p)) eqn:Hc.
      * assert (Hbelow : sentinel_at_bottom below).
        { destruct below as [| q below'].
          - destruct Hs as [Hi _]. apply andb_true_iff in Hc. lia.
          - exact Hs. }
        destruct (discard_until_marker_total below Hbelow) as (regions & Hregions).
        rewrite Hregions. simpl.
        apply discard_until_marker_suffix in Hregions.
        destruct Hregions as (_ & _ & Hne).
        destruct regions as [| q rest]; [congruence |]. simpl.
        destruct (has_marker q); eexists; reflexivity.
      * simpl. destruct (has_marker p); eexists; reflexivity.
    + unfold plainLine. rewrite Heq. simpl.
      destruct (indent <? pr_indent p) eqn:Hc.
      * assert (Hbelow : sentinel_at_bottom below).
        { destruct below as [| q below'].
          - destruct Hs as [Hi _]. lia.
          - exact Hs. }
        destruct (discard_larger_indent_total indent below) as (regions & Hregions);
          [lia | exact Hbelow |].
        rewrite Hregions. simpl.
        apply discard_larger_indent_spec in Hregions.
        destruct Hregions as (_ & _ & Hne).
        destruct regions as [| q rest]; [congruence |]. simpl.
        destruct (pr_indent q =? indent); eexists; reflexivity.
      * simpl. destruct (pr_indent p =? indent); eexists; reflexivity.
Qed.

Lemma forLines_total n st :
  wellFormedModel model ->
  Z.of_nat n <= getLineCount model ->
  Invariant (Z.of_nat n) st ->
  exists st',
    forLines String_match model offSide pattern patternIndent minimumRangeSize n st = Ok st'.
Proof.
  intros Hwf. revert st. induction n as [| k IH]; intros st Hn HI.
  - eexists. reflexivity.
  - cbn [forLines].
    destruct (step_total (Z.of_nat (S k)) st) as (st1 & Hstep).
    + apply Hwf. lia.
    + now destruct HI.
    + rewrite Hstep. simpl. apply IH; [lia |].
      replace (Z.of_nat k) with (Z.of_nat (S k) - 1) by lia.
      apply step_Inv with (st := st); [lia | exact HI | exact Hstep].
Qed.

(** The loop states carry the invariant, whatever the line count. *)
Lemma loopState_sentinel line st :
  loopState String_match model offSide pattern patternIndent minimumRangeSize line st ->
  line <= getLineCount model
  /\ sentinel_at_bottom (previousRegions st)
  /\ (0 <= getLineCount model -> Invariant line st).
Proof.
  intros H. induction H as [| line st st' _ (Hle & _ & HI) Hpos Hstep].
  - split; [lia |]. split; [simpl; split; reflexivity |]. apply initialState_Inv.
  - assert (HI' : Invariant (line - 1) st').
    { apply step_Inv with (st := st); [lia | apply HI; lia | exact Hstep]. }
    split; [lia |]. split; [now destruct HI' | intros _; exact HI'].
Qed.

(** ** What a plain line does when the top has a larger indent *)

Lemma discard_larger_indent_kept indent rest q below :
  keptRegions indent rest = q :: below ->
  discard_larger_indent indent rest = Ok (q :: below).
Proof.
  induction rest as [| p rest IH]; simpl; [discriminate |].
  destruct (indent <? pr_indent p); [exact IH | intros ->; reflexivity].
Qed.

Lemma keptRegions_top indent rest q below :
  keptRegions indent rest = q :: below -> pr_indent q <= indent.
Proof.
  induction rest as [| p rest IH]; simpl; [discriminate |].
  destruct (indent <? pr_indent p) eqn:E; [exact IH |].
  intros [= <- <-]. lia.
Qed.

Lemma plainLine_larger_indent line indent st p below q rest :
  previousRegions st = p :: below ->
  indent < pr_indent p ->
  keptRegions indent below = q :: rest ->
  plainLine minimumRangeSize line indent st
  = Ok {| previousRegions :=
            if pr_indent q =? indent
            then with_line q line :: rest
            else {| pr_indent := indent; pr_line := line; pr_marker := None |}
                 :: q :: rest;
          result :=
            result st
            ++ (if minimumRangeSize <=? pr_line q - 1 - line
                then [new_IndentRange line (pr_line q - 1) indent None]
                else []) |}.
Proof.
  intros Heq Hlt Hkept. unfold plainLine. rewrite Heq. simpl.
  destruct (indent <? pr_indent p) eqn:E; [| lia].
  rewrite (discard_larger_indent_kept _ _ _ _ Hkept). simpl.
  destruct (minimumRangeSize <=? pr_line q - 1 - line);
    destruct (pr_indent q =? indent); simpl; rewrite ?app_nil_r; reflexivity.
Qed.

(** After a plain line the top region has the line's indent. *)
Lemma plainLine_top line indent st st' :
  plainLine minimumRangeSize line indent st = Ok st' ->
  exists q rest, previousRegions st' = q :: rest /\ pr_indent q = indent.
Proof.
  unfold plainLine. intros H.
  bind_inv H as p Hp. bind_inv H as pair Hpair. destruct pair as [regions res].
  bind_inv H as q Hq. apply top_Ok in Hq. destruct Hq as (rest & ->).
  destruct (pr_indent q =? indent) eqn:E; injection H as <-; simpl.
  - exists (with_line q line), rest. split; [reflexivity | simpl; lia].
  - eexists _, _. split; reflexivity.
Qed.

End LoopFacts.

(** ** The whole function *)

Lemma computeRanges_inv model offSide markers minimumRangeSize rs :
  computeRanges RegExp_new String_match model offSide markers minimumRangeSize = Ok rs ->
  Forall (range_ok model (defaultTo1 minimumRangeSize) 0) rs
  /\ StronglySorted (fun a b => startLineNumber a < startLineNumber b) rs.
Proof.
  unfold computeRanges. intros H.
  bind_inv H as compiled Hc. destruct compiled as [pattern patternIndent].
  bind_inv H as st Hst. injection H as <-.
  destruct (Z_lt_le_dec (getLineCount model) 0) as [Hneg | Hpos].
  - replace (Z.to_nat (getLineCount model)) with O in Hst by lia.
    simpl in Hst. injection Hst as <-.
    simpl. split; constructor.
  - apply forLines_Inv in Hst.
    + destruct Hst as [_ _ Hres Hsorted]. split; [| exact Hsorted].
      now apply Forall_rev.
    + rewrite Z2Nat.id; lia.
    + rewrite Z2Nat.id by lia. now apply initialState_Inv.
Qed.

(** The ranges returned are those of a state the loop relation reaches
    at line 0. *)
Lemma computeRanges_loopState model offSide markers minimumRangeSize rs :
  0 <= getLineCount model ->
  computeRanges RegExp_new String_match model offSide markers minimumRangeSize = Ok rs ->
  exists pattern patternIndent st,
    compileMarkers RegExp_new markers = Ok (pattern, patternIndent)
    /\ loopState String_match model offSide pattern patternIndent
         (defaultTo1 minimumRangeSize) 0 st
    /\ rs = rev (result st).
Proof.
  intros Hn. unfold computeRanges. intros H.
  bind_inv H as compiled Hc. destruct compiled as [pattern patternIndent].
  bind_inv H as st Hst. injection H as <-.
  exists pattern, patternIndent, st. split; [exact Hc |]. split; [| reflexivity].
  apply forLines_loopState with (n := Z.to_nat (getLineCount model))
                                (st := initialState model); [| exact Hst].
  rewrite Z2Nat.id by lia. apply loop_enter.
Qed.

Lemma computeRanges_total model offSide markers minimumRangeSize :
  wellFormedModel model ->
  (forall mk, markers = Some mk -> RegExp_new (patternSource mk) <> None) ->
  exists rs,
    computeRanges RegExp_new String_match model offSide markers minimumRangeSize = Ok rs.
Proof.
  intros Hwf Hmk. unfold computeRanges.
  assert (Hc : exists pattern patternIndent,
             compileMarkers RegExp_new markers = Ok (pattern, patternIndent)).
  { unfold compileMarkers. destruct markers as [mk |]; [| now eexists _, _].
    specialize (Hmk mk eq_refl).
    destruct (RegExp_new (patternSource mk)); [now eexists _, _ | congruence]. }
  destruct Hc as (pattern & patternIndent & ->). simpl.
  destruct (Z_lt_le_dec (getLineCount model) 0) as [Hneg | Hpos].
  - replace (Z.to_nat (getLineCount model)) with O by lia. simpl. now eexists.
  - destruct (forLines_total model offSide pattern patternIndent
                (defaultTo1 minimumRangeSize) (Z.to_nat (getLineCount model))
                (initialState model)) as (st & ->).
    + exact Hwf.
    + rewrite Z2Nat.id; lia.
    + rewrite Z2Nat.id by lia. now apply initialState_Inv.
    + simpl. now eexists.
Qed.

Lemma computeRanges_no_lines model offSide markers minimumRangeSize :
  getLineCount model <= 0 ->
  (forall mk, markers = Some mk -> RegExp_new (patternSource mk) <> None) ->
  computeRanges RegExp_new String_match model offSide markers minimumRangeSize = Ok [].
Proof.
  intros Hn Hmk. unfold computeRanges.
  assert (Hc : exists pattern patternIndent,
             compileMarkers RegExp_new markers = Ok (pattern, patternIndent)).
  { unfold compileMarkers. destruct markers as [mk |]; [| now eexists _, _].
    specialize (Hmk mk eq_refl).
    destruct (RegExp_new (patternSource mk)); [now eexists _, _ | congruence]. }
  destruct Hc as (pattern & patternIndent & ->). simpl.
  replace (Z.to_nat (getLineCount model)) with O by lia. reflexivity.
Qed.

End Correctness.

(** ** Blank lines of an off-side language *)

Section OffSideBlankLines.

Variable RegExp : Type.
Variable String_match : string -> RegExp -> option (option string).
Variable pattern : option RegExp.
Variable patternIndent : Z.
Variable minimumRangeSize : Z.

Local Abbreviation run model offSide :=
  (forLines String_match model offSide pattern patternIndent minimumRangeSize).
Local Abbreviation body model offSide :=
  (step String_match model offSide pattern patternIndent minimumRangeSize).

(** The body reads the model at the visited line only. *)
Lemma step_ext model model' offSide line (st : State RegExp) :
  getIndentLevel model line = getIndentLevel model' line ->
  getLineContent model line = getLineContent model' line ->
  body model offSide line st = body model' offSide line st.
Proof. intros Hi Hc. unfold step, lineMatch. rewrite Hi, Hc. reflexivity. Qed.

Lemma forLines_ext model model' offSide n (st : State RegExp) :
  (forall line, 1 <= line <= Z.of_nat n ->
     getIndentLevel model line = getIndentLevel model' line
     /\ getLineContent model line = getLineContent model' line) ->
  run model offSide n st = run model' offSide n st.
Proof.
  revert st. induction n as [| k IH]; intros st Hagree; [reflexivity |].
  cbn [forLines].
  rewrite (step_ext model model' offSide (Z.of_nat (S k)) st)
    by (apply Hagree; lia).
  destruct (body model' offSide (Z.of_nat (S k)) st) as [st1 | e]; [| reflexivity].
  simpl. apply IH. intros line Hline. apply Hagree. lia.
Qed.

(** Under [offSide] a blank line moves the top region's [line] exactly
    as a plain line with the top region's indent would. *)
Lemma blank_line_as_block_line model line (st : State RegExp) q rest :
  getIndentLevel model line = -1 ->
  previousRegions st = q :: rest ->
  body model true line st = plainLine minimumRangeSize line (pr_indent q) st.
Proof.
  intros Hblank Heq. unfold step, plainLine. rewrite Hblank, Heq. simpl.
  rewrite Z.ltb_irrefl. simpl.
  destruct (Z.eqb_spec (pr_indent q) (pr_indent q)); [reflexivity | congruence].
Qed.

(** A non-blank line that matches no marker goes through [plainLine]. *)
Lemma step_at_set_line model offSide line i (st : State RegExp) :
  i <> -1 ->
  lineMatch String_match model pattern patternIndent line i = None ->
  body (setIndentLevel model line i) offSide line st
  = plainLine minimumRangeSize line i st.
Proof.
  intros Hi Hm. unfold step, lineMatch in *.
  cbn [getIndentLevel getLineContent setIndentLevel].
  rewrite Z.eqb_refl. apply Z.eqb_neq in Hi. rewrite Hi, Hm. reflexivity.
Qed.

Lemma forLines_blank_line_joins model (l d : nat) (i : Z) (st : State RegExp) :
  getIndentLevel model (Z.of_nat l) = -1 ->
  getIndentLevel model (Z.of_nat l + 1) = i ->
  i <> -1 ->
  lineMatch String_match model pattern patternIndent (Z.of_nat l + 1) i = None ->
  lineMatch String_match model pattern patternIndent (Z.of_nat l) i = None ->
  run model true (S l + d) st
  = run (setIndentLevel model (Z.of_nat l) i) true (S l + d) st.
Proof.
  intros Hblank Hnext Hi Hm1 Hm0. revert st.
  set (model' := setIndentLevel model (Z.of_nat l) i).
  assert (Hother : forall line, line <> Z.of_nat l ->
            getIndentLevel model line = getIndentLevel model' line
            /\ getLineContent model line = getLineContent model' line).
  { intros line Hne. simpl. apply Z.eqb_neq in Hne. rewrite Hne. now split. }
  induction d as [| d IH]; intros st.
  - rewrite Nat.add_0_r. cbn [forLines].
    rewrite <- (step_ext model model' true (Z.of_nat (S l)) st)
      by (apply Hother; lia).
    destruct (body model true (Z.of_nat (S l)) st) as [st1 | e] eqn:Hstep;
      [| reflexivity].
    simpl. destruct l as [| l']; [reflexivity |].
    unfold step in Hstep.
    replace (Z.of_nat (S (S l'))) with (Z.of_nat (S l') + 1) in Hstep by lia.
    rewrite Hnext in Hstep. apply Z.eqb_neq in Hi. rewrite Hi, Hm1 in Hstep.
    apply plainLine_top in Hstep. destruct Hstep as (q & rest & Heq & Hq).
    cbn [forLines].
    rewrite (blank_line_as_block_line model _ st1 q rest Hblank Heq).
    unfold model'. rewrite step_at_set_line by (apply Z.eqb_neq in Hi; assumption).
    rewrite Hq.
    destruct (plainLine minimumRangeSize (Z.of_nat (S l')) i st1)
      as [st2 | e]; [| reflexivity].
    simpl. apply forLines_ext. intros line Hline. apply Hother. lia.
  - replace (S l + S d)%nat with (S (S l + d)) by lia. cbn [forLines].
    rewrite <- (step_ext model model' true (Z.of_nat (S (S l + d))) st)
      by (apply Hother; lia).
    destruct (body model true (Z.of_nat (S (S l + d))) st) as [st1 | e];
      [| reflexivity].
    simpl. apply IH.
Qed.

End OffSideBlankLines.

(** ** Concrete models *)

Lemma linesModel_wellFormed (lines : list (Z * string)) :
  forallb (fun l => -1 <=? fst l) lines = true -> wellFormedModel (linesModel lines).
Proof.
  intros H line Hline. simpl in *.
  rewrite forallb_forall in H.
  assert (Hin : In (nth (Z.to_nat (line - 1)) lines (-1, EmptyString)) lines).
  { apply nth_In. lia. }
  apply H in Hin. lia.
Qed.

Lemma poppedRegions_keptRegions {RegExp : Type} indent (regions : list (PreviousRegion RegExp)) :
  regions = poppedRegions indent regions ++ keptRegions indent regions.
Proof.
  induction regions as [| p below IH]; simpl; [reflexivity |].
  destruct (indent <? pr_indent p); simpl; [now rewrite <- IH | reflexivity].
Qed.

Lemma twoDedentsBeforeLine1_reached :
  loopState literal_match twoDedents false None (-1) 1 1 twoDedentsBeforeLine1.
Proof.
  apply (loop_iterate _ literal_match twoDedents false None (-1) 1 2
           {| previousRegions := [region 2 3; region 1 4; region (-1) 6]; result := [] |});
    [| lia | reflexivity].
  apply (loop_iterate _ literal_match twoDedents false None (-1) 1 3
           {| previousRegions := [region 1 4; region (-1) 6]; result := [] |});
    [| lia | reflexivity].
  apply (loop_iterate _ literal_match twoDedents false None (-1) 1 4
           {| previousRegions := [region 1 5; region (-1) 6]; result := [] |});
    [| lia | reflexivity].
  apply (loop_iterate _ literal_match twoDedents false None (-1) 1 5
           {| previousRegions := [region (-1) 6]; result := [] |});
    [| lia | reflexivity].
  exact (loop_enter _ literal_match twoDedents false None (-1) 1).
Qed.

(** The contract on indent levels is needed: a level below [-1] makes
    the indent loop pop the sentinel, and the next read of the top entry
    throws. *)
Example indent_below_sentinel_throws :
  computeRangesLiteral (indentsModel [0; -2]) false None None = Throw TypeError.
Proof. reflexivity. Qed.

(** * The claims *)

(** C1, as stated, fails: on [twoDedents] the body at line 1 pops the
    regions of indent 2 and of indent 1; the region of indent 1 (line 4)
    has span [4 - 1 - 1 = 2], which is not below the minimum 1, yet no
    range [[1, 3]] with indent 1 is emitted for it. *)
Lemma popped_region_without_range_of_its_own :
  loopState literal_match twoDedents false None (-1) 1 1 twoDedentsBeforeLine1
  /\ getIndentLevel twoDedents 1 = 0
  /\ lineMatch literal_match twoDedents None (-1) 1 0 = None
  /\ In (region 1 4) (poppedRegions 0 (previousRegions twoDedentsBeforeLine1))
  /\ 1 <= pr_line (region 1 4) - 1 - 1
  /\ computeRangesLiteral twoDedents false None (Some 1)
     = Ok [new_IndentRange 1 5 0 None]
  /\ exists st',
       step literal_match twoDedents false None (-1) 1 1 twoDedentsBeforeLine1 = Ok st'
       /\ result st' = [new_IndentRange 1 5 0 None]
       /\ ~ emitsRangePerPoppedRegion 1 1 0 twoDedentsBeforeLine1 st'.
Proof.
  split; [exact twoDedentsBeforeLine1_reached |].
  split; [reflexivity |]. split; [reflexivity |].
  split; [simpl; right; left; reflexivity |].
  split; [simpl; lia |].
  split; [reflexivity |].
  eexists. split; [reflexivity |]. split; [reflexivity |].
  intros Hclaim.
  destruct (Hclaim (region 1 4)) as (mk & Hin).
  - simpl. right. left. reflexivity.
  - simpl. lia.
  - simpl in Hin. destruct Hin as [Heq | []]. discriminate Heq.
Qed.

(** C1 (amended): when a plain line (not blank, no marker match) is
    visited and the top region's indent exceeds the line's indent, the
    regions of larger indent are popped, and one range at most is
    emitted for the line, whatever the number of regions popped: with
    [q] the first region left, the range [[line, q.line - 1]] carrying
    the indent of the current line, emitted exactly when
    [q.line - 1 - line] is at least [minimumRangeSize]. *)
Theorem plain_line_emits_one_range_with_line_indent
    (RegExp : Type) (String_match : string -> RegExp -> option (option string))
    (model : ITextModel) (offSide : bool) (pattern : option RegExp)
    (patternIndent minimumRangeSize line : Z) (st : State RegExp)
    (p q : PreviousRegion RegExp) (below rest : list (PreviousRegion RegExp)) :
  getIndentLevel model line <> -1 ->
  lineMatch String_match model pattern patternIndent line (getIndentLevel model line)
  = None ->
  previousRegions st = p :: below ->
  getIndentLevel model line < pr_indent p ->
  keptRegions (getIndentLevel model line) below = q :: rest ->
  previousRegions st
  = poppedRegions (getIndentLevel model line) (previousRegions st) ++ q :: rest
  /\ step String_match model offSide pattern patternIndent minimumRangeSize line st
     = Ok {| previousRegions :=
               if pr_indent q =? getIndentLevel model line
               then with_line q line :: rest
               else {| pr_indent := getIndentLevel model line;
                       pr_line := line;
                       pr_marker := None |} :: q :: rest;
             result :=
               result st
               ++ (if minimumRangeSize <=? pr_line q - 1 - line
                   then [new_IndentRange line (pr_line q - 1)
                           (getIndentLevel model line) None]
                   else []) |}.
Proof.
  intros Hblank Hmatch Heq Hlt Hkept. split.
  - rewrite (poppedRegions_keptRegions (getIndentLevel model line) (previousRegions st))
      at 1.
    f_equal. rewrite Heq. simpl.
    destruct (getIndentLevel model line <? pr_indent p) eqn:E; [exact Hkept | lia].
  - unfold step. apply Z.eqb_neq in Hblank. rewrite Hblank, Hmatch.
    now apply plainLine_larger_indent with (p := p) (below := below).
Qed.

Lemma plain_line_emits_one_range_witness :
  previousRegions twoDedentsBeforeLine1
  = poppedRegions (getIndentLevel twoDedents 1) (previousRegions twoDedentsBeforeLine1)
    ++ [region (-1) 6]
  /\ step literal_match twoDedents false None (-1) 1 1 twoDedentsBeforeLine1
     = Ok {| previousRegions := [region 0 1; region (-1) 6];
             result := [new_IndentRange 1 5 0 None] |}.
Proof.
  apply (plain_line_emits_one_range_with_line_indent LiteralRegExp literal_match
           twoDedents false None (-1) 1 1 twoDedentsBeforeLine1
           (region 2 2) (region (-1) 6) [region 1 4; region (-1) 6] []).
  - vm_compute. discriminate.
  - reflexivity.
  - reflexivity.
  - vm_compute. reflexivity.
  - reflexivity.
Defined.

(** C2: whatever the model, the off-side flag, the markers and the
    minimum size, the ranges [computeRanges] returns are in ascending
    order of [startLineNumber]. *)
Theorem computeRanges_sorted_by_start
    (RegExp : Type) (RegExp_new : string -> option RegExp)
    (String_match : string -> RegExp -> option (option string))
    (model : ITextModel) (offSide : bool) (markers : option FoldMarkers)
    (minimumRangeSize : option Z) (rs : list IndentRange) :
  computeRanges RegExp_new String_match model offSide markers minimumRangeSize = Ok rs ->
  StronglySorted (fun a b => startLineNumber a <= startLineNumber b) rs.
Proof.
  intros H. apply computeRanges_inv in H. destruct H as (_ & Hsorted).
  induction Hsorted as [| a l _ IH Hall]; constructor; [exact IH |].
  revert Hall. apply Forall_impl. intros b Hb. lia.
Qed.

Lemma computeRanges_sorted_by_start_witness :
  StronglySorted (fun a b => startLineNumber a <= startLineNumber b)
    [new_IndentRange 1 4 0 None; new_IndentRange 2 3 1 None].
Proof.
  apply (computeRanges_sorted_by_start LiteralRegExp literal_RegExp_new literal_match
           nestedBlocks false None (Some 1)).
  reflexivity.
Defined.

(** C3: every range [computeRanges] returns has
    [startLineNumber <= endLineNumber], and both bounds lie within
    [[1, lineCount]] of the model. *)
Theorem computeRanges_ranges_within_model
    (RegExp : Type) (RegExp_new : string -> option RegExp)
    (String_match : string -> RegExp -> option (option string))
    (model : ITextModel) (offSide : bool) (markers : option FoldMarkers)
    (minimumRangeSize : option Z) (rs : list IndentRange) (r : IndentRange) :
  computeRanges RegExp_new String_match model offSide markers minimumRangeSize = Ok rs ->
  In r rs ->
  startLineNumber r <= endLineNumber r
  /\ 1 <= startLineNumber r <= getLineCount model
  /\ 1 <= endLineNumber r <= getLineCount model.
Proof.
  intros H Hin. apply computeRanges_inv in H. destruct H as (Hall & _).
  rewrite Forall_forall in Hall. destruct (Hall r Hin) as (Hs & Hb & _). lia.
Qed.

Lemma computeRanges_ranges_within_model_witness :
  startLineNumber (new_IndentRange 1 3 0 (Some true))
  <= endLineNumber (new_IndentRange 1 3 0 (Some true))
  /\ 1 <= startLineNumber (new_IndentRange 1 3 0 (Some true)) <= getLineCount regionBuffer
  /\ 1 <= endLineNumber (new_IndentRange 1 3 0 (Some true)) <= getLineCount regionBuffer.
Proof.
  apply (computeRanges_ranges_within_model LiteralRegExp literal_RegExp_new literal_match
           regionBuffer false (Some regionMarkers) None
           [new_IndentRange 1 3 0 (Some true)]).
  - reflexivity.
  - simpl. left. reflexivity.
Defined.

(** C5: on a line whose indent level is [-1], under [offSide] the body
    sets the [line] of the top pending region to the current line and
    changes nothing else; without [offSide] it changes nothing.  Hence,
    for an off-side language without markers, a blank line directly
    above a line of a block is handled as a line of that block: the
    ranges are those of the model in which the blank line has the
    block's indent, and the block 2-4 of [blockWithBlankLine] with its
    blank line 3 stays in the single range 1-4. *)
Theorem blank_line_moves_top_region_under_offSide :
  (forall (RegExp : Type) (String_match : string -> RegExp -> option (option string))
          (model : ITextModel) (pattern : option RegExp)
          (patternIndent minimumRangeSize line : Z) (st : State RegExp)
          (p : PreviousRegion RegExp) (below : list (PreviousRegion RegExp)),
      getIndentLevel model line = -1 ->
      previousRegions st = p :: below ->
      step String_match model true pattern patternIndent minimumRangeSize line st
      = Ok {| previousRegions := with_line p line :: below; result := result st |})
  /\ (forall (RegExp : Type) (String_match : string -> RegExp -> option (option string))
             (model : ITextModel) (pattern : option RegExp)
             (patternIndent minimumRangeSize line : Z) (st : State RegExp),
         getIndentLevel model line = -1 ->
         step String_match model false pattern patternIndent minimumRangeSize line st
         = Ok st)
  /\ (forall (RegExp : Type) (RegExp_new : string -> option RegExp)
             (String_match : string -> RegExp -> option (option string))
             (model : ITextModel) (minimumRangeSize : option Z) (line i : Z),
         1 <= line < getLineCount model ->
         getIndentLevel model line = -1 ->
         getIndentLevel model (line + 1) = i ->
         i <> -1 ->
         computeRanges RegExp_new String_match model true None minimumRangeSize
         = computeRanges RegExp_new String_match (setIndentLevel model line i) true None
             minimumRangeSize)
  /\ computeRangesLiteral blockWithBlankLine true None None
     = Ok [new_IndentRange 1 4 0 None].
Proof.
  split; [| split; [| split]].
  - intros RegExp String_match model pattern patternIndent minimumRangeSize line st
           p below Hblank Heq.
    unfold step. rewrite Hblank, Heq. reflexivity.
  - intros RegExp String_match model pattern patternIndent minimumRangeSize line st
           Hblank.
    unfold step. rewrite Hblank. reflexivity.
  - intros RegExp RegExp_new String_match model minimumRangeSize line i
           Hline Hblank Hnext Hi.
    set (l := Z.to_nat line). assert (Hl : line = Z.of_nat l) by lia.
    clearbody l. subst line.
    unfold computeRanges. cbn [compileMarkers bind].
    change (getLineCount (setIndentLevel model (Z.of_nat l) i))
      with (getLineCount model).
    change (initialState (setIndentLevel model (Z.of_nat l) i))
      with (@initialState RegExp model).
    replace (Z.to_nat (getLineCount model))
      with (S l + (Z.to_nat (getLineCount model) - S l))%nat by lia.
    rewrite (forLines_blank_line_joins RegExp String_match None (-1)
               (defaultTo1 minimumRangeSize) model l _ i);
      [reflexivity | exact Hblank | exact Hnext | exact Hi | reflexivity | reflexivity].
  - reflexivity.
Qed.

Lemma blank_line_moves_top_region_under_offSide_witness :
  step literal_match blockWithBlankLine true None (-1) 1 3
    {| previousRegions := [region 1 4; region 0 5; region (-1) 6]; result := [] |}
  = Ok {| previousRegions := [region 1 3; region 0 5; region (-1) 6]; result := [] |}
  /\ computeRangesLiteral blockWithBlankLine true None None
     = computeRangesLiteral (setIndentLevel blockWithBlankLine 3 1) true None None.
Proof.
  split.
  - apply (proj1 blank_line_moves_top_region_under_offSide
             LiteralRegExp literal_match blockWithBlankLine None (-1) 1 3
             {| previousRegions := [region 1 4; region 0 5; region (-1) 6]; result := [] |}
             (region 1 4) [region 0 5; region (-1) 6]).
    + reflexivity.
    + reflexivity.
  - apply (proj1 (proj2 (proj2 blank_line_moves_top_region_under_offSide))
             LiteralRegExp literal_RegExp_new literal_match blockWithBlankLine None 3 1).
    + simpl. lia.
    + reflexivity.
    + reflexivity.
    + discriminate.
Defined.

(** C6, as stated, fails: the run on [nestedBlocks] does not return the
    inner range first. *)
Lemma nested_blocks_inner_range_is_not_first :
  ~ exists mk1 mk2,
      computeRangesLiteral nestedBlocks false None (Some 1)
      = Ok [new_IndentRange 2 3 1 mk1; new_IndentRange 1 4 0 mk2].
Proof. intros (mk1 & mk2 & H). vm_compute in H. discriminate H. Qed.

(** C6 (amended): for the five-line model of indent levels
    [[0,1,2,1,0]], with [offSide = false], no markers and
    [minimumRangeSize = 1], [computeRanges] returns exactly two ranges,
    in ascending order of [startLineNumber]: [{1, 4, indent 0}] followed
    by [{2, 3, indent 1}]. *)
Theorem nested_blocks_ranges
    (RegExp : Type) (RegExp_new : string -> option RegExp)
    (String_match : string -> RegExp -> option (option string)) :
  computeRanges RegExp_new String_match nestedBlocks false None (Some 1)
  = Ok [new_IndentRange 1 4 0 None; new_IndentRange 2 3 1 None].
Proof. reflexivity. Qed.

(** C7: for the three lines ['#region'], ['code'], ['#endregion'], all at
    indent 0, with the markers ['#region'] and ['#endregion'] and no
    indent constraint, [computeRanges] returns exactly one range, lines
    1 to 3 with [marker = true]: the end-marker line is the last line
    of the range. *)
Theorem region_markers_fold_whole_buffer
    (offSide : bool) (minimumRangeSize : option Z) :
  computeRangesLiteral regionBuffer offSide (Some regionMarkers) minimumRangeSize
  = Ok [new_IndentRange 1 3 0 (Some true)].
Proof. destruct offSide; reflexivity. Qed.

(** C8: on a well-formed model (indent levels not below [-1]), the
    marker pattern being one the engine compiles, [computeRanges]
    returns without throwing; and when the model has no line it returns
    the empty sequence. *)
Theorem computeRanges_never_throws
    (RegExp : Type) (RegExp_new : string -> option RegExp)
    (String_match : string -> RegExp -> option (option string))
    (model : ITextModel) (offSide : bool) (markers : option FoldMarkers)
    (minimumRangeSize : option Z) :
  (forall mk, markers = Some mk -> RegExp_new (patternSource mk) <> None) ->
  (wellFormedModel model ->
   exists rs,
     computeRanges RegExp_new String_match model offSide markers minimumRangeSize = Ok rs)
  /\ (getLineCount model = 0 ->
      computeRanges RegExp_new String_match model offSide markers minimumRangeSize
      = Ok []).
Proof.
  intros Hmk. split.
  - intros Hwf. now apply computeRanges_total.
  - intros Hn. apply computeRanges_no_lines; [lia | exact Hmk].
Qed.

Lemma computeRanges_never_throws_witness :
  (exists rs,
     computeRangesLiteral regionBuffer true (Some regionMarkers) (Some 1) = Ok rs)
  /\ computeRangesLiteral (linesModel []) true (Some regionMarkers) (Some 1) = Ok [].
Proof.
  split.
  - apply (computeRanges_never_throws LiteralRegExp literal_RegExp_new literal_match
             regionBuffer true (Some regionMarkers) (Some 1)).
    + intros mk [= <-]. vm_compute. discriminate.
    + apply linesModel_wellFormed. reflexivity.
  - apply (computeRanges_never_throws LiteralRegExp literal_RegExp_new literal_match
             (linesModel []) true (Some regionMarkers) (Some 1)).
    + intros mk [= <-]. vm_compute. discriminate.
    + reflexivity.
Defined.

(** C9: on a well-formed model, in every state the loop of
    [computeRanges] passes through, the stack of pending regions is not
    empty and its bottom entry is the sentinel (indent [-1], no marker):
    neither pop loop removes it, and the next run of the body, with all
    its reads of the top entry, does not throw. *)
Theorem sentinel_is_never_popped
    (RegExp : Type) (String_match : string -> RegExp -> option (option string))
    (model : ITextModel) (offSide : bool) (pattern : option RegExp)
    (patternIndent minimumRangeSize line : Z) (st : State RegExp) :
  wellFormedModel model ->
  loopState String_match model offSide pattern patternIndent minimumRangeSize line st ->
  previousRegions st <> []
  /\ sentinel_at_bottom (previousRegions st)
  /\ (forall (p : PreviousRegion RegExp) below,
         pr_indent p < 0 -> discard_until_marker (p :: below) = Ok (p :: below))
  /\ (forall indent (p : PreviousRegion RegExp) below,
         0 <= indent -> pr_indent p < 0 ->
         discard_larger_indent indent (p :: below) = Ok (p :: below))
  /\ (0 < line ->
      exists st',
        step String_match model offSide pattern patternIndent minimumRangeSize line st
        = Ok st'
        /\ sentinel_at_bottom (previousRegions st')).
Proof.
  intros Hwf Hloop.
  destruct (loopState_sentinel _ _ _ _ _ _ _ _ _ Hloop) as (Hle & Hs & HI).
  split; [now apply sentinel_at_bottom_nonempty |]. split; [exact Hs |].
  split.
  { intros p below Hp. simpl.
    destruct (0 <=? pr_indent p) eqn:E; [lia | reflexivity]. }
  split.
  { intros indent p below Hi Hp. simpl.
    destruct (indent <? pr_indent p) eqn:E; [lia | reflexivity]. }
  intros Hpos.
  destruct (step_total RegExp String_match model offSide pattern patternIndent
              minimumRangeSize line st) as (st' & Hstep).
  - apply Hwf. lia.
  - exact Hs.
  - exists st'. split; [exact Hstep |].
    assert (Hloop' := loop_iterate _ _ _ _ _ _ _ _ _ _ Hloop Hpos Hstep).
    now destruct (loopState_sentinel _ _ _ _ _ _ _ _ _ Hloop') as (_ & Hs' & _).
Qed.

Lemma sentinel_is_never_popped_witness :
  previousRegions twoDedentsBeforeLine1 <> []
  /\ sentinel_at_bottom (previousRegions twoDedentsBeforeLine1)
  /\ (forall (p : PreviousRegion LiteralRegExp) below,
         pr_indent p < 0 -> discard_until_marker (p :: below) = Ok (p :: below))
  /\ (forall indent (p : PreviousRegion LiteralRegExp) below,
         0 <= indent -> pr_indent p < 0 ->
         discard_larger_indent indent (p :: below) = Ok (p :: below))
  /\ (0 < 1 ->
      exists st',
        step literal_match twoDedents false None (-1) 1 1 twoDedentsBeforeLine1 = Ok st'
        /\ sentinel_at_bottom (previousRegions st')).
Proof.
  apply (sentinel_is_never_popped LiteralRegExp literal_match twoDedents false None
           (-1) 1 1 twoDedentsBeforeLine1).
  - apply linesModel_wellFormed. reflexivity.
  - exact twoDedentsBeforeLine1_reached.
Defined.

(** C10: [deepCloneArr] returns an array of the same length whose
    elements have the [startLineNumber], [endLineNumber] and [indent] of
    the originals and no [marker]: a range with [marker = true] loses
    its flag under cloning. *)
Theorem deepCloneArr_drops_marker :
  (forall indentRanges : list IndentRange,
      exists clones,
        deepCloneArr indentRanges = Ok clones
        /\ List.length clones = List.length indentRanges
        /\ Forall2 (fun r c =>
                      startLineNumber c = startLineNumber r
                      /\ endLineNumber c = endLineNumber r
                      /\ indent c = indent r
                      /\ marker c = None)
                   indentRanges clones)
  /\ (forall s e i : Z,
         deepCloneArr [new_IndentRange s e i (Some true)]
         = Ok [new_IndentRange s e i None]).
Proof.
  split.
  - intros indentRanges. exists (map cloneOf indentRanges).
    split; [apply deepCloneArr_map |]. split; [apply length_map |].
    induction indentRanges as [| r l IH]; simpl; constructor; [| exact IH].
    simpl. repeat split.
  - intros s e i. reflexivity.
Qed.

(** * Further properties of [computeRanges] *)

Section BodyCases.

Variable RegExp : Type.
Variable String_match : string -> RegExp -> option (option string).

Implicit Types (p q : PreviousRegion RegExp) (regions rest popped : list (PreviousRegion RegExp)).
Implicit Types (st : State RegExp).

Lemma has_marker_false p : has_marker p = false <-> pr_marker p = None.
Proof. unfold has_marker. destruct (pr_marker p); split; congruence. Qed.

Lemma has_marker_true p : has_marker p = true <-> pr_marker p <> None.
Proof. unfold has_marker. destruct (pr_marker p); split; congruence. Qed.

Lemma discard_until_marker_split rest regions :
  discard_until_marker rest = Ok regions ->
  exists popped q below,
    rest = popped ++ q :: below /\ regions = q :: below
    /\ Forall (fun p => 0 <= pr_indent p /\ pr_marker p = None) popped
    /\ (pr_indent q < 0 \/ pr_marker q <> None).
Proof.
  induction rest as [| p below IH]; simpl; [discriminate |].
  destruct ((0 <=? pr_indent p) && negb (has_marker p)) eqn:E.
  - intros H. destruct (IH H) as (popped & q & below' & -> & -> & Hall & Hq).
    exists (p :: popped), q, below'. repeat split; try assumption.
    apply andb_true_iff in E. destruct E as [E1 E2].
    constructor; [| exact Hall]. split; [lia |].
    apply has_marker_false. now destruct (has_marker p).
  - intros [= <-]. exists [], p, below. repeat split; [constructor |].
    apply andb_false_iff in E. destruct E as [E | E]; [left; lia | right].
    apply has_marker_true. now destruct (has_marker p).
Qed.

Lemma discard_until_marker_run popped q below :
  Forall (fun p => 0 <= pr_indent p /\ pr_marker p = None) popped ->
  pr_indent q < 0 \/ pr_marker q <> None ->
  discard_until_marker (popped ++ q :: below) = Ok (q :: below).
Proof.
  intros Hall Hq. induction Hall as [| p popped [Hp1 Hp2] _ IH]; simpl.
  - destruct Hq as [Hq | Hq].
    + destruct (0 <=? pr_indent q) eqn:E; [lia | reflexivity].
    + apply has_marker_true in Hq. rewrite Hq, andb_false_r. reflexivity.
  - apply has_marker_false in Hp2. rewrite Hp2.
    destruct (0 <=? pr_indent p) eqn:E; [exact IH | lia].
Qed.

Lemma discard_larger_indent_split indent rest regions :
  discard_larger_indent indent rest = Ok regions ->
  exists popped q below,
    rest = popped ++ q :: below /\ regions = q :: below
    /\ Forall (fun p => indent < pr_indent p) popped
    /\ pr_indent q <= indent.
Proof.
  induction rest as [| p below IH]; simpl; [discriminate |].
  destruct (indent <? pr_indent p) eqn:E.
  - intros H. destruct (IH H) as (popped & q & below' & -> & -> & Hall & Hq).
    exists (p :: popped), q, below'. repeat split; try assumption.
    constructor; [lia | exact Hall].
  - intros [= <-]. exists [], p, below. repeat split; [constructor | lia].
Qed.

Lemma discard_larger_indent_run indent popped q below :
  Forall (fun p => indent < pr_indent p) popped ->
  pr_indent q <= indent ->
  discard_larger_indent indent (popped ++ q :: below) = Ok (q :: below).
Proof.
  intros Hall Hq. induction Hall as [| p popped Hp _ IH]; simpl.
  - destruct (indent <? pr_indent q) eqn:E; [lia | reflexivity].
  - destruct (indent <? pr_indent p) eqn:E; [exact IH | lia].
Qed.

Section Body.

Variable model : ITextModel.
Variable offSide : bool.
Variable pattern : option RegExp.
Variable patternIndent : Z.
Variable minimumRangeSize : Z.

Local Abbreviation body :=
  (step String_match model offSide pattern patternIndent minimumRangeSize).
Local Abbreviation case :=
  (bodyCase String_match model offSide pattern patternIndent minimumRangeSize).
Local Abbreviation reached :=
  (loopState String_match model offSide pattern patternIndent minimumRangeSize).

Lemma plainLine_cases line st st' :
  getIndentLevel model line <> -1 ->
  lineMatch String_match model pattern patternIndent line (getIndentLevel model line)
  = None ->
  plainLine minimumRangeSize line (getIndentLevel model line) st = Ok st' ->
  case line st st'.
Proof.
  intros Hblank Hmatch H. unfold plainLine in H.
  bind_inv H as p Hp. apply top_Ok in Hp. destruct Hp as (below & Heq).
  destruct (getIndentLevel model line <? pr_indent p) eqn:E.
  - bind_inv H as pair Hpair. bind_inv Hpair as regions Hregions.
    rewrite Heq in Hregions. simpl in Hregions.
    apply discard_larger_indent_split in Hregions.
    destruct Hregions as (popped & q & rest & Hbelow & -> & Hall & Hq).
    simpl in Hpair. injection Hpair as <-. simpl in H.
    assert (Hst' : st' = {| previousRegions := settle line (getIndentLevel model line) q rest;
                            result := result st
                                      ++ emitted minimumRangeSize line
                                           (getIndentLevel model line) q |}).
    { unfold settle, emitted.
      destruct (pr_indent q =? getIndentLevel model line);
        destruct (minimumRangeSize <=? pr_line q - 1 - line);
        injection H as <-; rewrite ?app_nil_r; reflexivity. }
    rewrite Hst'. apply case_plain_pop with (p := p) (popped := popped);
      try assumption.
    + rewrite Heq, Hbelow. reflexivity.
    + constructor; [lia | exact Hall].
  - simpl in H. rewrite Heq in H. simpl in H.
    assert (Hst' : st' = {| previousRegions := settle line (getIndentLevel model line) p below;
                            result := result st |}).
    { unfold settle. destruct (pr_indent p =? getIndentLevel model line);
        injection H as <-; reflexivity. }
    rewrite Hst'. apply case_plain_no_pop; try assumption. lia.
Qed.

Lemma startMatch_cases line m st st' :
  getIndentLevel model line <> -1 ->
  lineMatch String_match model pattern patternIndent line (getIndentLevel model line)
  = Some m ->
  truthy m = true ->
  startMatch line (getIndentLevel model line) st = Ok st' ->
  case line st st'.
Proof.
  intros Hblank Hmatch Htruthy H. unfold startMatch in H.
  bind_inv H as p Hp. apply top_Ok in Hp. destruct Hp as (below & Heq).
  bind_inv H as regions Hregions.
  assert (Hsplit : exists popped q rest,
             previousRegions st = popped ++ q :: rest /\ regions = q :: rest
             /\ Forall (fun p => 0 <= pr_indent p /\ pr_marker p = None) popped
             /\ (pr_indent q < 0 \/ pr_marker q <> None)).
  { destruct ((0 <=? pr_indent p) && negb (has_marker p)) eqn:E.
    - rewrite Heq in Hregions. simpl in Hregions.
      apply discard_until_marker_split in Hregions.
      destruct Hregions as (popped & q & rest & -> & -> & Hall & Hq).
      exists (p :: popped), q, rest. rewrite Heq. repeat split; try assumption.
      apply andb_true_iff in E. destruct E as [E1 E2].
      constructor; [| exact Hall]. split; [lia |].
      apply has_marker_false. now destruct (has_marker p).
    - injection Hregions as <-. exists [], p, below. rewrite Heq.
      repeat split; [constructor |].
      apply andb_false_iff in E. destruct E as [E | E]; [left; lia | right].
      apply has_marker_true. now destruct (has_marker p). }
  destruct Hsplit as (popped & q & rest & Hstack & -> & Hall & Hq).
  simpl in H. destruct (has_marker q) eqn:Hm; injection H as <-.
  - apply case_start_marker_closes with (m := m) (popped := popped); try assumption.
    now apply has_marker_true.
  - apply has_marker_false in Hm.
    apply case_start_marker_unmatched with (m := m) (popped := popped);
      try assumption.
    destruct Hq as [Hq | Hq]; [exact Hq | congruence].
Qed.

(** The body, when it does not throw, takes one of the seven cases. *)
Lemma step_cases line st st' : body line st = Ok st' -> case line st st'.
Proof.
  unfold step. intros H.
  destruct (getIndentLevel model line =? -1) eqn:Hblank.
  - apply Z.eqb_eq in Hblank. destruct offSide eqn:Hoff.
    + bind_inv H as p Hp. apply top_Ok in Hp. destruct Hp as (below & Heq).
      injection H as <-. rewrite Heq. simpl.
      now apply case_blank_offSide.
    + injection H as <-. now apply case_blank_skipped.
  - apply Z.eqb_neq in Hblank.
    destruct (lineMatch String_match model pattern patternIndent line
                (getIndentLevel model line)) as [m |] eqn:Hmatch.
    + destruct (truthy m) eqn:Htruthy.
      * now apply startMatch_cases with (m := m).
      * injection H as <-. now apply case_end_marker with (m := m).
    + now apply plainLine_cases.
Qed.

(** Conversely each case is a run of the body. *)
Lemma cases_step line st st' : case line st st' -> body line st = Ok st'.
Proof.
  intros H. unfold step.
  destruct H as [p below Hblank Hoff Heq | Hblank Hoff | m Hblank Hmatch Htruthy
                | m popped q rest Hblank Hmatch Htruthy Heq Hall Hq
                | m popped q rest Hblank Hmatch Htruthy Heq Hall Hq Hqm
                | q rest Hblank Hmatch Heq Hq
                | p popped q rest Hblank Hmatch Heq Hall Hq].
  - rewrite Hblank, Hoff, Heq. reflexivity.
  - rewrite Hblank, Hoff. reflexivity.
  - apply Z.eqb_neq in Hblank. rewrite Hblank, Hmatch, Htruthy. reflexivity.
  - apply Z.eqb_neq in Hblank. rewrite Hblank, Hmatch, Htruthy.
    unfold startMatch. rewrite Heq.
    destruct popped as [| p popped]; simpl.
    + apply has_marker_true in Hq. rewrite Hq, andb_false_r. simpl.
      rewrite Hq. reflexivity.
    + inversion Hall as [| ? ? [Hp1 Hp2] Hall']; subst.
      apply has_marker_false in Hp2. rewrite Hp2.
      destruct (0 <=? pr_indent p) eqn:E; [| lia]. simpl.
      rewrite discard_until_marker_run by (try assumption; now right). simpl.
      apply has_marker_true in Hq. rewrite Hq. reflexivity.
  - apply Z.eqb_neq in Hblank. rewrite Hblank, Hmatch, Htruthy.
    unfold startMatch. rewrite Heq.
    destruct popped as [| p popped]; simpl.
    + destruct (0 <=? pr_indent q) eqn:E; [lia |]. simpl.
      apply has_marker_false in Hqm. rewrite Hqm. reflexivity.
    + inversion Hall as [| ? ? [Hp1 Hp2] Hall']; subst.
      apply has_marker_false in Hp2. rewrite Hp2.
      destruct (0 <=? pr_indent p) eqn:E; [| lia]. simpl.
      rewrite discard_until_marker_run by (try assumption; now left). simpl.
      apply has_marker_false in Hqm. rewrite Hqm. reflexivity.
  - apply Z.eqb_neq in Hblank. rewrite Hblank, Hmatch.
    unfold plainLine. rewrite Heq. simpl.
    destruct (getIndentLevel model line <? pr_indent q) eqn:E; [lia |]. simpl.
    unfold settle. destruct (pr_indent q =? getIndentLevel model line); reflexivity.
  - apply Z.eqb_neq in Hblank. rewrite Hblank, Hmatch.
    unfold plainLine. rewrite Heq. simpl.
    inversion Hall as [| ? ? Hp Hall']; subst.
    destruct (getIndentLevel model line <? pr_indent p) eqn:E; [| lia].
    rewrite discard_larger_indent_run by assumption. simpl.
    unfold settle, emitted.
    destruct (pr_indent q =? getIndentLevel model line);
      destruct (minimumRangeSize <=? pr_line q - 1 - line);
      rewrite ?app_nil_r; reflexivity.
Qed.

(** An invariant of the loop holds in every state the loop reaches. *)
Lemma loopState_invariant (J : Z -> State RegExp -> Prop) :
  J (getLineCount model) (initialState model) ->
  (forall line st st',
      reached line st -> 1 <= line <= getLineCount model -> J line st ->
      case line st st' -> J (line - 1) st') ->
  forall line st, reached line st -> J line st.
Proof.
  intros Hinit Hstep line st H.
  induction H as [| line st st' Hreached IH Hpos Hbody]; [exact Hinit |].
  apply Hstep with (st := st); try assumption.
  - destruct (loopState_sentinel _ _ _ _ _ _ _ _ _ Hreached) as (Hle & _). lia.
  - now apply step_cases.
Qed.

(** ** The shape of the stack *)

Lemma stackShape_weaken next next' regions :
  next' <= next -> stackShape next regions -> stackShape next' regions.
Proof.
  intros Hle (Hs & Hl & Hm). repeat split; try assumption.
  revert Hl. apply Forall_impl. intros e He. lia.
Qed.

Lemma stackShape_suffix next popped regions :
  stackShape next (popped ++ regions) -> stackShape next regions.
Proof.
  intros (Hs & Hl & Hm). induction popped as [| p popped IH]; [now repeat split |].
  simpl in *. inversion Hs; inversion Hl; inversion Hm; subst. now apply IH.
Qed.

Lemma stackShape_push next line e regions :
  next < line -> (pr_marker e <> None -> pr_indent e = -2) -> pr_line e = line ->
  stackShape line regions -> stackShape next (e :: regions).
Proof.
  intros Hlt He Hline (Hs & Hl & Hm). repeat split.
  - constructor; [exact Hs |]. revert Hl. apply Forall_impl. intros a Ha. lia.
  - constructor; [lia |]. revert Hl. apply Forall_impl. intros a Ha. lia.
  - constructor; [exact He | exact Hm].
Qed.

Lemma stackShape_tail next e regions :
  stackShape next (e :: regions) -> stackShape next regions.
Proof. apply (stackShape_suffix next [e]). Qed.

Lemma stackShape_top_marker next e regions :
  stackShape next (e :: regions) -> pr_marker e <> None -> pr_indent e = -2.
Proof. intros (_ & _ & Hm). inversion Hm; subst. assumption. Qed.

Lemma stackShape_settle line indent q rest :
  indent <> -2 ->
  stackShape line (q :: rest) -> stackShape (line - 1) (settle line indent q rest).
Proof.
  intros Hi Hshape. unfold settle. destruct (pr_indent q =? indent) eqn:E.
  - apply stackShape_push with (line := line); try reflexivity; [lia | |].
    + simpl. intros Hm. apply (stackShape_top_marker _ _ _ Hshape) in Hm. lia.
    + now apply stackShape_tail in Hshape.
  - apply stackShape_push with (line := line); try reflexivity; [lia | | exact Hshape].
    simpl. congruence.
Qed.

Lemma lineMatch_pattern line indent m :
  lineMatch String_match model pattern patternIndent line indent = Some m ->
  pattern <> None.
Proof. unfold lineMatch. destruct pattern; [discriminate | discriminate]. Qed.

(** The stack keeps its shape as long as no visited line has the
    indent [-2] of a pending end marker. *)
Lemma case_stackShape line st st' :
  getIndentLevel model line <> -2 ->
  stackShape line (previousRegions st) ->
  case line st st' ->
  stackShape (line - 1) (previousRegions st').
Proof.
  intros Hwf Hshape H.
  destruct H as [p below Hblank Hoff Heq | Hblank Hoff | m Hblank Hmatch Htruthy
                | m popped q rest Hblank Hmatch Htruthy Heq Hall Hq
                | m popped q rest Hblank Hmatch Htruthy Heq Hall Hq Hqm
                | q rest Hblank Hmatch Heq Hq
                | p popped q rest Hblank Hmatch Heq Hall Hq]; simpl.
  - rewrite Heq in Hshape.
    apply stackShape_push with (line := line); try reflexivity; [lia | |].
    + simpl. apply (stackShape_top_marker _ _ _ Hshape).
    + now apply stackShape_tail in Hshape.
  - apply stackShape_weaken with (next := line); [lia | exact Hshape].
  - apply stackShape_push with (line := line); try reflexivity; [lia | exact Hshape].
  - rewrite Heq in Hshape. apply stackShape_suffix in Hshape.
    apply stackShape_tail in Hshape.
    apply stackShape_push with (line := line); try reflexivity; [lia | | exact Hshape].
    simpl. congruence.
  - rewrite Heq in Hshape. apply stackShape_suffix in Hshape.
    apply stackShape_weaken with (next := line); [lia | exact Hshape].
  - rewrite Heq in Hshape. now apply stackShape_settle.
  - rewrite Heq in Hshape. apply stackShape_suffix in Hshape.
    now apply stackShape_settle.
Qed.

Lemma initialState_stackShape :
  stackShape (getLineCount model) (previousRegions (@initialState RegExp model)).
Proof.
  simpl. repeat split.
  - constructor; constructor.
  - constructor; [simpl; lia | constructor].
  - constructor; [simpl; congruence | constructor].
Qed.

(** ** Ranges are nested or disjoint *)

Lemma clearOf_at_line (e : PreviousRegion RegExp) (r : IndentRange) line :
  pr_line e = line -> line < startLineNumber r -> clearOf e r.
Proof. intros He Hr. left. split; [lia | intros _; lia]. Qed.

Lemma nesting_no_range next line st regions :
  line - 1 <= next ->
  nesting next st ->
  stackShape (line - 1) regions ->
  (forall e, In e regions -> In e (previousRegions st) \/ pr_line e = line) ->
  next = line ->
  nesting (line - 1) {| previousRegions := regions; result := result st |}.
Proof.
  intros Hle (Hshape & Hstart & Hclear & Hpair) Hshape' Hin ->.
  split; [exact Hshape' |]. simpl. split; [| split; [| exact Hpair]].
  - revert Hstart. apply Forall_impl. intros r Hr. lia.
  - intros r e Hr He. destruct (Hin e He) as [Hold | Hnew].
    + now apply Hclear.
    + apply clearOf_at_line with (line := line); [exact Hnew |].
      rewrite Forall_forall in Hstart. now apply Hstart.
Qed.

Lemma nesting_with_range line st regions (r' : IndentRange) q :
  nesting line st ->
  stackShape (line - 1) regions ->
  In q (previousRegions st) ->
  startLineNumber r' = line ->
  (endLineNumber r' = pr_line q - 1
   \/ endLineNumber r' = pr_line q /\ pr_marker q <> None) ->
  (forall e, In e regions ->
             (In e (previousRegions st) /\ endLineNumber r' < pr_line e)
             \/ (pr_line e = line /\ pr_marker e = None)) ->
  nesting (line - 1) {| previousRegions := regions; result := result st ++ [r'] |}.
Proof.
  intros (Hshape & Hstart & Hclear & Hpair) Hshape' Hq Hr' Hend Hin.
  rewrite Forall_forall in Hstart.
  split; [exact Hshape' |]. simpl. split; [| split].
  - apply Forall_app. split.
    + apply Forall_forall. intros r Hr. apply Hstart in Hr. lia.
    + constructor; [lia | constructor].
  - intros r e Hr He. apply in_app_or in Hr. destruct Hr as [Hr | [<- | []]].
    + destruct (Hin e He) as [[Hold _] | [Hnew _]].
      * now apply Hclear.
      * apply clearOf_at_line with (line := line); [exact Hnew | now apply Hstart].
    + destruct (Hin e He) as [[_ Hbelow] | [Hnew Hnone]].
      * now right.
      * left. split; [lia | congruence].
  - intros r1 r2 H1 H2 Hlt.
    apply in_app_or in H1. apply in_app_or in H2.
    destruct H1 as [H1 | [<- | []]]; destruct H2 as [H2 | [<- | []]].
    + now apply Hpair.
    + apply Hstart in H1. lia.
    + specialize (Hclear r2 q H2 Hq). unfold nestedOrDisjoint.
      destruct Hend as [Hend | [Hend Hm]]; destruct Hclear as [[Hc1 Hc2] | Hc];
        try lia.
      specialize (Hc2 Hm). lia.
    + lia.
Qed.

Lemma sorted_below (q : PreviousRegion RegExp) rest e next :
  stackShape next (q :: rest) -> In e rest -> pr_line q < pr_line e.
Proof.
  intros (Hs & _ & _) He. inversion Hs as [| ? ? _ Hall]; subst.
  rewrite Forall_forall in Hall. now apply Hall.
Qed.

Lemma case_nesting line st st' :
  -1 <= getIndentLevel model line ->
  nesting line st -> case line st st' -> nesting (line - 1) st'.
Proof.
  intros Hwf HJ H.
  assert (Hshape' : stackShape (line - 1) (previousRegions st')).
  { destruct HJ as (Hshape & _). apply case_stackShape with (st := st);
      [lia | exact Hshape | exact H]. }
  assert (Hshape : stackShape line (previousRegions st)) by apply HJ.
  destruct H as [p below Hblank Hoff Heq | Hblank Hoff | m Hblank Hmatch Htruthy
                | m popped q rest Hblank Hmatch Htruthy Heq Hall Hq
                | m popped q rest Hblank Hmatch Htruthy Heq Hall Hq Hqm
                | q rest Hblank Hmatch Heq Hq
                | p popped q rest Hblank Hmatch Heq Hall Hq].
  - apply nesting_no_range with (next := line); try assumption; [lia | | reflexivity].
    intros e [<- | He]; [now right | left]. rewrite Heq. now right.
  - destruct st as [regions res]. simpl in *.
    apply (nesting_no_range line line {| previousRegions := regions; result := res |});
      try assumption; [lia | | reflexivity].
    intros e He. now left.
  - apply nesting_no_range with (next := line); try assumption; [lia | | reflexivity].
    intros e [<- | He]; [now right | now left].
  - rewrite Heq in Hshape. apply stackShape_suffix in Hshape.
    apply nesting_with_range with (q := q); try assumption.
    + rewrite Heq. apply in_or_app. right. now left.
    + reflexivity.
    + right. split; [reflexivity | exact Hq].
    + intros e [<- | He]; [right; split; reflexivity | left]. split.
      * rewrite Heq. apply in_or_app. right. now right.
      * simpl. now apply sorted_below with (rest := rest) (next := line).
  - apply nesting_no_range with (next := line); try assumption; [lia | | reflexivity].
    intros e He. left. rewrite Heq. apply in_or_app. now right.
  - apply nesting_no_range with (next := line); try assumption; [lia | | reflexivity].
    intros e He. rewrite Heq. unfold settle in He.
    destruct (pr_indent q =? getIndentLevel model line).
    + destruct He as [<- | He]; [now right | left; now right].
    + destruct He as [<- | He]; [now right | now left].
  - rewrite Heq in Hshape. apply stackShape_suffix in Hshape.
    assert (Hqin : In q (previousRegions st)).
    { rewrite Heq. apply in_or_app. right. now left. }
    assert (Hrest : forall e, In e rest -> In e (previousRegions st)).
    { intros e He. rewrite Heq. apply in_or_app. right. now right. }
    unfold emitted.
    destruct (minimumRangeSize <=? pr_line q - 1 - line).
    + apply nesting_with_range with (q := q); try assumption.
      * reflexivity.
      * left. reflexivity.
      * intros e He. simpl. unfold settle in He.
        destruct (pr_indent q =? getIndentLevel model line) eqn:E.
        -- destruct He as [<- | He].
           ++ right. split; [reflexivity |]. simpl.
              destruct (pr_marker q) eqn:Hm; [| reflexivity].
              assert (pr_indent q = -2).
              { apply (stackShape_top_marker _ _ _ Hshape). congruence. }
              lia.
           ++ left. split; [now apply Hrest |].
              assert (pr_line q < pr_line e)
                by now apply sorted_below with (rest := rest) (next := line).
              lia.
        -- destruct He as [<- | [<- | He]].
           ++ right. split; reflexivity.
           ++ left. split; [exact Hqin | lia].
           ++ left. split; [now apply Hrest |].
              assert (pr_line q < pr_line e)
                by now apply sorted_below with (rest := rest) (next := line).
              lia.
    + rewrite app_nil_r.
      apply nesting_no_range with (next := line); try assumption; [lia | | reflexivity].
      intros e He. unfold settle in He.
      destruct (pr_indent q =? getIndentLevel model line).
      * destruct He as [<- | He]; [now right | left; now apply Hrest].
      * destruct He as [<- | [<- | He]]; [now right | now left | left; now apply Hrest].
Qed.

Lemma reached_nesting line st :
  wellFormedModel model -> reached line st -> nesting line st.
Proof.
  intros Hwf. apply loopState_invariant.
  - split; [apply initialState_stackShape |]. simpl.
    split; [constructor |]. split; intros; contradiction.
  - intros l s s' _ Hline HJ Hcase.
    apply case_nesting with (st := s); [now apply Hwf | exact HJ | exact Hcase].
Qed.

(** ** Without markers a range covers a block *)

Lemma no_pattern_no_match line indent :
  pattern = None ->
  lineMatch String_match model pattern patternIndent line indent = None.
Proof. intros ->. reflexivity. Qed.

Lemma blocksBetween_tail (e : PreviousRegion RegExp) regions :
  blocksBetween model (e :: regions) -> blocksBetween model regions.
Proof. destruct regions as [| w below]; simpl; [tauto | tauto]. Qed.

Lemma blocksBetween_suffix popped regions :
  blocksBetween model (popped ++ regions) -> blocksBetween model regions.
Proof.
  induction popped as [| p popped IH]; [tauto |].
  intros H. apply IH. now apply blocksBetween_tail with (e := p).
Qed.

Lemma blocksBetween_cons (u w : PreviousRegion RegExp) below :
  (forall l, pr_line u <= l < pr_line w ->
             getIndentLevel model l = -1 \/ pr_indent u <= getIndentLevel model l) ->
  (exists l, pr_line u <= l < pr_line w /\ getIndentLevel model l = pr_indent u) ->
  blocksBetween model (w :: below) ->
  blocksBetween model (u :: w :: below).
Proof. intros H1 H2 H3. split; [exact H1 | split; [exact H2 | exact H3]]. Qed.

(** The lines from above a run of popped regions down to the region the
    pops stop at are blank or deeper than the visited line. *)
Lemma popped_span_deeper indent (q : PreviousRegion RegExp) rest popped :
  forall lo top below,
    popped ++ q :: rest = top :: below ->
    blocksBetween model (popped ++ q :: rest) ->
    Forall (fun p => indent < pr_indent p) popped ->
    (forall l, lo < l < pr_line top ->
               getIndentLevel model l = -1 \/ indent < getIndentLevel model l) ->
    forall l, lo < l < pr_line q ->
              getIndentLevel model l = -1 \/ indent < getIndentLevel model l.
Proof.
  induction popped as [| p popped IH]; intros lo top below Heq Hblocks Hall Hlo l Hl.
  - injection Heq as <- <-. now apply Hlo.
  - injection Heq as <- <-. inversion Hall as [| ? ? Hp Hall']; subst.
    simpl in Hblocks.
    destruct (popped ++ q :: rest) as [| w below'] eqn:Hbelow.
    + destruct popped; discriminate Hbelow.
    + destruct Hblocks as (Hpair & _ & Hblocks).
      apply (IH lo w below' eq_refl Hblocks Hall'); [| exact Hl].
      intros l' Hl'. destruct (Z_lt_le_dec l' (pr_line p)) as [Hlt | Hge].
      * apply Hlo. lia.
      * destruct (Hpair l') as [Hb | Hd]; [lia | now left | right; lia].
Qed.

Lemma sorted_before (q : PreviousRegion RegExp) popped rest :
  StronglySorted (fun a b => pr_line a < pr_line b) (popped ++ q :: rest) ->
  Forall (fun p => pr_line p < pr_line q) popped.
Proof.
  induction popped as [| p popped IH]; simpl; intros H; [constructor |].
  inversion H as [| ? ? Hs Hall]; subst. constructor; [| now apply IH].
  rewrite Forall_forall in Hall. apply Hall. apply in_or_app. right. now left.
Qed.

(** The top popped region brings a deeper line inside the range. *)
Lemma popped_top_deeper_line indent next (p q : PreviousRegion RegExp) popped rest :
  stackShape next ((p :: popped) ++ q :: rest) ->
  blocksBetween model ((p :: popped) ++ q :: rest) ->
  indent < pr_indent p ->
  exists l, next < l < pr_line q /\ indent < getIndentLevel model l.
Proof.
  intros (Hs & Hl & _) Hblocks Hp. simpl in *.
  assert (Hnext : next < pr_line p) by (inversion Hl; assumption).
  inversion Hs as [| ? ? Hs' _]; subst. apply sorted_before in Hs'.
  destruct popped as [| w popped]; simpl in *.
  - destruct Hblocks as (_ & (l & Hl1 & Hl2) & _). exists l. split; lia.
  - destruct Hblocks as (_ & (l & Hl1 & Hl2) & _).
    inversion Hs'; subst. exists l. split; lia.
Qed.

Lemma blocks_settle line (q : PreviousRegion RegExp) rest :
  stackShape line (q :: rest) ->
  blocksBetween model (q :: rest) ->
  pr_indent q <= getIndentLevel model line ->
  (forall l, line < l < pr_line q ->
             getIndentLevel model l = -1
             \/ getIndentLevel model line <= getIndentLevel model l) ->
  blocksBetween model (settle line (getIndentLevel model line) q rest).
Proof.
  intros (Hs & Hl & _) Hblocks Hq Hspan. unfold settle.
  assert (Hline : line < pr_line q) by (inversion Hl; assumption).
  destruct (pr_indent q =? getIndentLevel model line) eqn:E.
  - destruct rest as [| w below]; [exact I |].
    destruct Hblocks as (Hpair & _ & Hbelow).
    assert (Hw : pr_line q < pr_line w).
    { inversion Hs as [| ? ? _ Hall]; subst. inversion Hall; assumption. }
    apply blocksBetween_cons; simpl; [| | exact Hbelow].
    + intros l Hl'. destruct (Z.eq_dec l line) as [-> | Hne]; [right; lia |].
      destruct (Z_lt_le_dec l (pr_line q)) as [Hlt | Hge].
      * destruct (Hspan l) as [Hb | Hd]; [lia | now left | right; lia].
      * apply Hpair. lia.
    + exists line. split; lia.
  - apply blocksBetween_cons; simpl; [| | exact Hblocks].
    + intros l Hl'. destruct (Z.eq_dec l line) as [-> | Hne]; [right; lia |].
      apply Hspan. lia.
    + exists line. split; [lia | reflexivity].
Qed.

Lemma settle_top line indent (q : PreviousRegion RegExp) rest :
  exists e below, settle line indent q rest = e :: below
                  /\ pr_line e = line /\ pr_indent e = indent.
Proof.
  unfold settle. destruct (pr_indent q =? indent) eqn:E.
  - exists (with_line q line), rest. simpl. repeat split. lia.
  - eexists _, _. repeat split.
Qed.

Lemma case_blocks line st st' :
  pattern = None ->
  getIndentLevel model line <> -2 ->
  blocks model line st -> case line st st' -> blocks model (line - 1) st'.
Proof.
  intros Hpat Hwf (Hshape & Hblocks & Hblank & Hres) H.
  assert (Hshape' : stackShape (line - 1) (previousRegions st')).
  { now apply case_stackShape with (st := st). }
  split; [exact Hshape' |]. clear Hshape'.
  destruct H as [p below Hb Hoff Heq | Hb Hoff | m Hb Hmatch Htruthy
                | m popped q rest Hb Hmatch Htruthy Heq Hall Hq
                | m popped q rest Hb Hmatch Htruthy Heq Hall Hq Hqm
                | q rest Hb Hmatch Heq Hq
                | p popped q rest Hb Hmatch Heq Hall Hq];
    cbn [previousRegions result];
    try (apply lineMatch_pattern in Hmatch; contradiction).
  - rewrite Heq in *. specialize (Hblank p below eq_refl).
    split; [| split; [| exact Hres]].
    + destruct below as [| w below]; [exact I |].
      destruct Hblocks as (Hpair & (l & Hl1 & Hl2) & Hbelow).
      apply blocksBetween_cons; simpl; [| | exact Hbelow].
      * intros l' Hl'. destruct (Z.eq_dec l' line) as [-> | Hne]; [now left |].
        destruct (Z_lt_le_dec l' (pr_line p)) as [Hlt | Hge].
        -- left. apply Hblank. lia.
        -- apply Hpair. lia.
      * exists l. split; [| exact Hl2].
        destruct Hshape as (_ & Hl & _). inversion Hl; subst. lia.
    + intros e rest [= <- <-]. simpl. intros l Hl. lia.
  - split; [exact Hblocks |]. split; [| exact Hres].
    intros e rest Heq l Hl. destruct (Z.eq_dec l line) as [-> | Hne]; [exact Hb |].
    apply (Hblank e rest Heq). lia.
  - rewrite Heq in *. specialize (Hblank q rest eq_refl).
    split; [| split; [| exact Hres]].
    + apply blocks_settle; try assumption.
      intros l Hl. left. now apply Hblank.
    + intros e below Hsettle l Hl.
      destruct (settle_top line (getIndentLevel model line) q rest)
        as (e' & below' & Heq' & Hline & _).
      rewrite Heq' in Hsettle. injection Hsettle as <- <-. lia.
  - rewrite Heq in *. specialize (Hblank p (popped ++ q :: rest) eq_refl).
    assert (Hspan : forall l, line < l < pr_line q ->
                      getIndentLevel model l = -1
                      \/ getIndentLevel model line < getIndentLevel model l).
    { apply (popped_span_deeper (getIndentLevel model line) q rest (p :: popped)
               line p (popped ++ q :: rest)); try assumption; [reflexivity |].
      intros l Hl. left. now apply Hblank. }
    split; [| split].
    + apply blocks_settle; try assumption.
      * now apply stackShape_suffix in Hshape.
      * now apply blocksBetween_suffix in Hblocks.
      * intros l Hl. destruct (Hspan l Hl) as [Hbl | Hd]; [now left | right; lia].
    + intros e below Hsettle l Hl.
      destruct (settle_top line (getIndentLevel model line) q rest)
        as (e' & below' & Heq' & Hline & _).
      rewrite Heq' in Hsettle. injection Hsettle as <- <-. lia.
    + apply Forall_app. split; [exact Hres |].
      unfold emitted. destruct (minimumRangeSize <=? pr_line q - 1 - line);
        [| constructor].
      constructor; [| constructor]. split; simpl.
      * inversion Hall as [| ? ? Hp _]; subst.
        destruct (popped_top_deeper_line (getIndentLevel model line) line
                    p q popped rest Hshape Hblocks Hp) as (l & Hl1 & Hl2).
        exists l. split; [lia | exact Hl2].
      * intros l Hl. apply Hspan. lia.
Qed.

Lemma reached_blocks line st :
  pattern = None -> wellFormedModel model -> reached line st -> blocks model line st.
Proof.
  intros Hpat Hwf. apply loopState_invariant.
  - split; [apply initialState_stackShape |]. simpl.
    split; [exact I |]. split; [| constructor].
    intros e rest [= <- <-]. simpl. intros l Hl. lia.
  - intros l s s' _ Hline HJ Hcase.
    apply case_blocks with (st := s); try assumption.
    specialize (Hwf l Hline). lia.
Qed.

(** ** Where ranges come from *)

Lemma case_result_grows line st st' :
  case line st st' -> exists added, result st' = result st ++ added.
Proof.
  intros H. destruct H; simpl;
    try (exists []; now rewrite app_nil_r); now eexists.
Qed.

(** A range carries the indent of its first line, which is not blank; it
    has the marker flag when that line matched the start marker and no
    flag when the line matched no marker. *)
Lemma reached_range_origin line st :
  reached line st ->
  Forall (fun r =>
            indent r = getIndentLevel model (startLineNumber r)
            /\ indent r <> -1
            /\ (marker r = Some true
                /\ (exists m,
                       lineMatch String_match model pattern patternIndent
                         (startLineNumber r) (indent r) = Some m
                       /\ truthy m = true)
                \/ marker r = None
                   /\ lineMatch String_match model pattern patternIndent
                        (startLineNumber r) (indent r) = None))
         (result st).
Proof.
  apply (loopState_invariant
           (fun _ st => Forall _ (result st))); [constructor |].
  intros l s s' _ _ HJ Hcase.
  destruct Hcase as [p below Hb Hoff Heq | Hb Hoff | m Hb Hmatch Htruthy
                    | m popped q rest Hb Hmatch Htruthy Heq Hall Hq
                    | m popped q rest Hb Hmatch Htruthy Heq Hall Hq Hqm
                    | q rest Hb Hmatch Heq Hq
                    | p popped q rest Hb Hmatch Heq Hall Hq];
    simpl; try assumption.
  - apply Forall_app. split; [exact HJ |]. constructor; [| constructor].
    simpl. repeat split; try assumption. left. split; [reflexivity |]. now exists m.
  - apply Forall_app. split; [exact HJ |]. unfold emitted.
    destruct (minimumRangeSize <=? pr_line q - 1 - l); constructor; [| constructor].
    simpl. repeat split; try assumption. right. now split.
Qed.

(** ** Where ranges end *)

(** With [offSide] off and no markers, a pending region other than the
    sentinel sits on a line of its own indent, and the sentinel stays
    below the last line. *)
Lemma reached_range_end_not_offSide line st :
  pattern = None -> offSide = false -> reached line st ->
  Forall (fun e => pr_indent e = -1 /\ pr_line e = getLineCount model + 1
                   \/ pr_indent e <> -1
                      /\ getIndentLevel model (pr_line e) = pr_indent e)
         (previousRegions st)
  /\ Forall (fun r => endLineNumber r = getLineCount model
                      \/ getIndentLevel model (endLineNumber r + 1) <> -1
                         /\ getIndentLevel model (endLineNumber r + 1) <= indent r)
            (result st).
Proof.
  intros Hpat Hoff.
  apply (loopState_invariant
           (fun _ st => Forall _ (previousRegions st) /\ Forall _ (result st))).
  - split; [| constructor]. constructor; [| constructor]. left. now split.
  - intros l s s' _ _ (Hstack & Hres) Hcase.
    destruct Hcase as [p below Hb Hoff' Heq | Hb Hoff' | m Hb Hmatch Htruthy
                      | m popped q rest Hb Hmatch Htruthy Heq Hall Hq
                      | m popped q rest Hb Hmatch Htruthy Heq Hall Hq Hqm
                      | q rest Hb Hmatch Heq Hq
                      | p popped q rest Hb Hmatch Heq Hall Hq];
      cbn [previousRegions result];
      try (apply lineMatch_pattern in Hmatch; contradiction);
      try congruence.
    + now split.
    + split; [| exact Hres]. rewrite Heq in Hstack.
      inversion Hstack as [| ? ? Hq' Hrest]; subst. unfold settle.
      destruct (pr_indent q =? getIndentLevel model l) eqn:E.
      * constructor; [| exact Hrest]. right. simpl. split; lia.
      * constructor; [| exact Hstack]. right. simpl. now split.
    + rewrite Heq in Hstack. rewrite <- app_comm_cons in Hstack.
      inversion Hstack as [| ? ? _ Htail]; subst.
      apply Forall_app in Htail. destruct Htail as (_ & Htail).
      inversion Htail as [| ? ? Hq' Hrest]; subst. split.
      * unfold settle. destruct (pr_indent q =? getIndentLevel model l) eqn:E.
        -- constructor; [| exact Hrest]. right. simpl. split; lia.
        -- constructor; [| exact Htail]. right. simpl. now split.
      * apply Forall_app. split; [exact Hres |]. unfold emitted.
        destruct (minimumRangeSize <=? pr_line q - 1 - l); constructor; [| constructor].
        simpl. replace (pr_line q - 1 + 1) with (pr_line q) by lia.
        destruct Hq' as [[_ Hsent] | [Hne Hind]]; [left; lia | right].
        split; [congruence | lia].
Qed.

(** With [offSide] on and no markers, the top region sits on the line
    just visited, the line above every other pending region is not
    blank, and no range ends on a blank line. *)
Lemma reached_range_end_offSide line st :
  pattern = None -> offSide = true -> reached line st ->
  (exists e rest, previousRegions st = e :: rest
                  /\ pr_line e = line + 1
                  /\ Forall (fun e => getIndentLevel model (pr_line e - 1) <> -1) rest)
  /\ Forall (fun r => getIndentLevel model (endLineNumber r) <> -1) (result st).
Proof.
  intros Hpat Hoff.
  apply (loopState_invariant
           (fun next st =>
              (exists e rest, previousRegions st = e :: rest
                              /\ pr_line e = next + 1 /\ Forall _ rest)
              /\ Forall _ (result st))).
  - split; [| constructor]. eexists _, _. simpl. repeat split. constructor.
  - intros l s s' _ _ ((e & below & Heq0 & Hline & Hrest) & Hres) Hcase.
    destruct Hcase as [p below' Hb Hoff' Heq | Hb Hoff' | m Hb Hmatch Htruthy
                      | m popped q rest Hb Hmatch Htruthy Heq Hall Hq
                      | m popped q rest Hb Hmatch Htruthy Heq Hall Hq Hqm
                      | q rest Hb Hmatch Heq Hq
                      | p popped q rest Hb Hmatch Heq Hall Hq];
      cbn [previousRegions result];
      try (apply lineMatch_pattern in Hmatch; contradiction);
      try congruence.
    + rewrite Heq0 in Heq. injection Heq as <- <-. split; [| exact Hres].
      eexists _, _. split; [reflexivity |]. simpl. split; [lia | exact Hrest].
    + rewrite Heq0 in Heq. injection Heq as <- <-. split; [| exact Hres].
      unfold settle. destruct (pr_indent e =? getIndentLevel model l) eqn:E.
      * eexists _, _. split; [reflexivity |]. simpl. split; [lia | exact Hrest].
      * eexists _, _. split; [reflexivity |]. simpl. split; [lia |].
        constructor; [| exact Hrest]. replace (pr_line e - 1) with l by lia.
        exact Hb.
    + rewrite Heq0 in Heq. rewrite <- app_comm_cons in Heq.
      injection Heq as <- ->.
      apply Forall_app in Hrest. destruct Hrest as (_ & Hrest).
      inversion Hrest as [| ? ? Hq' Hrest']; subst. split.
      * unfold settle. destruct (pr_indent q =? getIndentLevel model l) eqn:E.
        -- eexists _, _. split; [reflexivity |]. simpl. split; [lia | exact Hrest'].
        -- eexists _, _. split; [reflexivity |]. simpl. split; [lia | exact Hrest].
      * apply Forall_app. split; [exact Hres |]. unfold emitted.
        destruct (minimumRangeSize <=? pr_line q - 1 - l); constructor;
          [exact Hq' | constructor].
Qed.

(** ** Every block head gets a range *)

Lemma reached_block_head s s' line st :
  pattern = None -> wellFormedModel model -> minimumRangeSize <= 1 ->
  1 <= s < s' /\ s' <= getLineCount model ->
  getIndentLevel model s <> -1 ->
  getIndentLevel model s < getIndentLevel model s' ->
  blankBetween model s s' ->
  reached line st ->
  (s <= line < s' ->
   exists e rest, previousRegions st = e :: rest
                  /\ pr_indent e = getIndentLevel model s')
  /\ (line < s -> exists r, In r (result st) /\ startLineNumber r = s).
Proof.
  intros Hpat Hwf Hmin Hs Hsb Hdeeper Hblank.
  assert (Hs0 : -1 <= getIndentLevel model s) by (apply Hwf; lia).
  apply (loopState_invariant
           (fun next st =>
              (s <= next < s' ->
               exists e rest, previousRegions st = e :: rest
                              /\ pr_indent e = getIndentLevel model s')
              /\ (next < s -> exists r, In r (result st) /\ startLineNumber r = s))).
  - split; intros H; lia.
  - intros l st0 st1 Hreached Hl (Htop & Hdone) Hcase. split.
    + intros Hnext. destruct (Z.eq_dec l s') as [-> | Hne].
      * destruct Hcase as [p below' Hb Hoff' Heq | Hb Hoff' | m Hb Hmatch Htruthy
                          | m popped q rest Hb Hmatch Htruthy Heq Hall Hq
                          | m popped q rest Hb Hmatch Htruthy Heq Hall Hq Hqm
                          | q rest Hb Hmatch Heq Hq
                          | p popped q rest Hb Hmatch Heq Hall Hq];
          cbn [previousRegions result];
          try (apply lineMatch_pattern in Hmatch; contradiction);
          try lia.
        -- destruct (settle_top s' (getIndentLevel model s') q rest)
             as (e & below & -> & _ & He). now exists e, below.
        -- destruct (settle_top s' (getIndentLevel model s') q rest)
             as (e & below & -> & _ & He). now exists e, below.
      * assert (Hb : getIndentLevel model l = -1) by (apply Hblank; lia).
        destruct Htop as (e & below & Heq0 & He); [lia |].
        destruct Hcase as [p below' _ Hoff' Heq | _ Hoff' | m Hb' Hmatch Htruthy
                          | m popped q rest Hb' Hmatch Htruthy Heq Hall Hq
                          | m popped q rest Hb' Hmatch Htruthy Heq Hall Hq Hqm
                          | q rest Hb' Hmatch Heq Hq
                          | p popped q rest Hb' Hmatch Heq Hall Hq];
          cbn [previousRegions result]; try contradiction.
        -- rewrite Heq0 in Heq. injection Heq as <- <-.
           now exists (with_line e l), below.
        -- now exists e, below.
    + intros Hnext. destruct (Z.eq_dec l s) as [-> | Hne].
      * destruct Htop as (e & below & Heq0 & He); [lia |].
        assert (Hshape : stackShape s (previousRegions st0)).
        { now apply reached_blocks. }
        destruct Hcase as [p below' Hb Hoff' Heq | Hb Hoff' | m Hb Hmatch Htruthy
                          | m popped q rest Hb Hmatch Htruthy Heq Hall Hq
                          | m popped q rest Hb Hmatch Htruthy Heq Hall Hq Hqm
                          | q rest Hb Hmatch Heq Hq
                          | p popped q rest Hb Hmatch Heq Hall Hq];
          cbn [previousRegions result];
          try (apply lineMatch_pattern in Hmatch; contradiction);
          try contradiction.
        -- rewrite Heq0 in Heq. injection Heq as <- <-. lia.
        -- rewrite Heq in Hshape. destruct Hshape as (Hsorted & Hlines & _).
           pose proof (sorted_before q (p :: popped) rest Hsorted) as Hbefore.
           assert (Hpq : pr_line p < pr_line q) by (inversion Hbefore; assumption).
           assert (Hp : s < pr_line p) by (inversion Hlines; assumption).
           unfold emitted.
           destruct (minimumRangeSize <=? pr_line q - 1 - s) eqn:E; [| lia].
           eexists. split; [apply in_or_app; right; left; reflexivity | reflexivity].
      * destruct Hdone as (r & Hr & Hstart); [lia |].
        destruct (case_result_grows _ _ _ Hcase) as (added & ->).
        exists r. split; [apply in_or_app; now left | exact Hstart].
Qed.

(** ** Ranges from markers *)


End Body.

(** ** The minimum range size is a filter on the result *)

Lemma keepBySize_app min (res added : list IndentRange) :
  filter (keepBySize min) (res ++ added)
  = filter (keepBySize min) res ++ filter (keepBySize min) added.
Proof. apply filter_app. Qed.

Lemma step_minimumRangeSize model offSide pattern patternIndent min min' line st st2 :
  min' <= min ->
  previousRegions st = previousRegions st2 ->
  result st = filter (keepBySize min) (result st2) ->
  match step String_match model offSide pattern patternIndent min' line st2 with
  | Ok st2' =>
      exists st',
        step String_match model offSide pattern patternIndent min line st = Ok st'
        /\ previousRegions st' = previousRegions st2'
        /\ result st' = filter (keepBySize min) (result st2')
  | Throw e =>
      step String_match model offSide pattern patternIndent min line st = Throw e
  end.
Proof.
  intros Hmin Hstack Hres.
  destruct st as [regions res], st2 as [regions2 res2]. simpl in Hstack, Hres. subst.
  unfold step.
  destruct (getIndentLevel model line =? -1).
  - destruct offSide; [| eexists; now repeat split].
    destruct regions2 as [| p below]; simpl; [reflexivity |].
    eexists. now repeat split.
  - destruct (lineMatch String_match model pattern patternIndent line
                (getIndentLevel model line)) as [m |].
    + destruct (truthy m); [| eexists; now repeat split].
      unfold startMatch. cbn [previousRegions result].
      destruct regions2 as [| p below]; simpl; [reflexivity |].
      destruct ((0 <=? pr_indent p) && negb (has_marker p)); simpl.
      * destruct (discard_until_marker below) as [regions |]; simpl; [| reflexivity].
        destruct regions as [| q rest]; simpl; [reflexivity |].
        destruct (has_marker q); eexists; repeat split.
        simpl. now rewrite keepBySize_app.
      * destruct (has_marker p); eexists; repeat split.
        simpl. now rewrite keepBySize_app.
    + unfold plainLine. cbn [previousRegions result].
      destruct regions2 as [| p below]; simpl; [reflexivity |].
      destruct (getIndentLevel model line <? pr_indent p); simpl.
      * destruct (discard_larger_indent (getIndentLevel model line) below)
          as [regions |]; simpl; [| reflexivity].
        destruct regions as [| q rest]; simpl; [reflexivity |].
        assert (Hfilter :
                  (if min <=? pr_line q - 1 - line
                   then filter (keepBySize min) res2
                        ++ [new_IndentRange line (pr_line q - 1)
                              (getIndentLevel model line) None]
                   else filter (keepBySize min) res2)
                  = filter (keepBySize min)
                      (if min' <=? pr_line q - 1 - line
                       then res2 ++ [new_IndentRange line (pr_line q - 1)
                                       (getIndentLevel model line) None]
                       else res2)).
        { destruct (min' <=? pr_line q - 1 - line) eqn:E'.
          - rewrite keepBySize_app. simpl. unfold keepBySize. simpl.
            destruct (min <=? pr_line q - 1 - line); [reflexivity |].
            now rewrite app_nil_r.
          - destruct (min <=? pr_line q - 1 - line) eqn:E; [lia | reflexivity]. }
        destruct (pr_indent q =? getIndentLevel model line);
          eexists; (split; [reflexivity |]); split; try reflexivity; exact Hfilter.
      * destruct (pr_indent p =? getIndentLevel model line); eexists; now repeat split.
Qed.

Lemma forLines_minimumRangeSize model offSide pattern patternIndent min min' n st st2 :
  min' <= min ->
  previousRegions st = previousRegions st2 ->
  result st = filter (keepBySize min) (result st2) ->
  match forLines String_match model offSide pattern patternIndent min' n st2 with
  | Ok st2' =>
      exists st',
        forLines String_match model offSide pattern patternIndent min n st = Ok st'
        /\ result st' = filter (keepBySize min) (result st2')
  | Throw e =>
      forLines String_match model offSide pattern patternIndent min n st = Throw e
  end.
Proof.
  intros Hmin. revert st st2. induction n as [| k IH]; intros st st2 Hstack Hres.
  - simpl. now exists st.
  - cbn [forLines].
    pose proof (step_minimumRangeSize model offSide pattern patternIndent min min'
                  (Z.of_nat (S k)) st st2 Hmin Hstack Hres) as Hstep.
    destruct (step String_match model offSide pattern patternIndent min'
                (Z.of_nat (S k)) st2) as [st2' | e].
    + destruct Hstep as (st' & -> & Hstack' & Hres'). simpl.
      now apply IH.
    + rewrite Hstep. reflexivity.
Qed.

(** ** Without blank lines [offSide] plays no part *)

Lemma forLines_offSide model pattern patternIndent min n st :
  (forall line, 1 <= line <= Z.of_nat n -> getIndentLevel model line <> -1) ->
  forLines String_match model true pattern patternIndent min n st
  = forLines String_match model false pattern patternIndent min n st.
Proof.
  revert st. induction n as [| k IH]; intros st Hall; [reflexivity |].
  cbn [forLines].
  assert (Hstep : step String_match model true pattern patternIndent min
                    (Z.of_nat (S k)) st
                  = step String_match model false pattern patternIndent min
                      (Z.of_nat (S k)) st).
  { unfold step. specialize (Hall (Z.of_nat (S k))).
    destruct (getIndentLevel model (Z.of_nat (S k)) =? -1) eqn:E; [| reflexivity].
    apply Z.eqb_eq in E. exfalso. apply Hall; [lia | exact E]. }
  rewrite Hstep.
  destruct (step String_match model false pattern patternIndent min
              (Z.of_nat (S k)) st) as [st' | e]; [| reflexivity].
  simpl. apply IH. intros line Hline. apply Hall. lia.
Qed.

(** ** From the loop to the function *)

(** The result of [computeRanges] is empty or the reverse of the result
    array of a state the loop reaches at line 0. *)
Lemma computeRanges_reached (RegExp_new : string -> option RegExp)
    model offSide markers minimumRangeSize rs :
  computeRanges RegExp_new String_match model offSide markers minimumRangeSize = Ok rs ->
  exists pattern patternIndent,
    compileMarkers RegExp_new markers = Ok (pattern, patternIndent)
    /\ (rs = []
        \/ exists st,
             loopState String_match model offSide pattern patternIndent
               (defaultTo1 minimumRangeSize) 0 st
             /\ rs = rev (result st)).
Proof.
  intros H. destruct (Z_lt_le_dec (getLineCount model) 0) as [Hneg | Hpos].
  - unfold computeRanges in H.
    bind_inv H as compiled Hc. destruct compiled as [pattern patternIndent].
    exists pattern, patternIndent. split; [exact Hc | left].
    replace (Z.to_nat (getLineCount model)) with O in H by lia.
    simpl in H. now injection H as <-.
  - destruct (computeRanges_loopState _ _ _ _ _ _ _ _ Hpos H)
      as (pattern & patternIndent & st & Hc & Hst & Hrs).
    exists pattern, patternIndent. split; [exact Hc | right]. now exists st.
Qed.

(** A property of the ranges of every state reached at line 0 is a
    property of the ranges returned. *)
Lemma computeRanges_Forall (RegExp_new : string -> option RegExp)
    (P : option RegExp -> Z -> IndentRange -> Prop)
    model offSide markers minimumRangeSize rs :
  (forall pattern patternIndent st,
      compileMarkers RegExp_new markers = Ok (pattern, patternIndent) ->
      loopState String_match model offSide pattern patternIndent
        (defaultTo1 minimumRangeSize) 0 st ->
      Forall (P pattern patternIndent) (result st)) ->
  computeRanges RegExp_new String_match model offSide markers minimumRangeSize = Ok rs ->
  exists pattern patternIndent,
    compileMarkers RegExp_new markers = Ok (pattern, patternIndent)
    /\ Forall (P pattern patternIndent) rs.
Proof.
  intros HP H. apply computeRanges_reached in H.
  destruct H as (pattern & patternIndent & Hc & [-> | (st & Hst & ->)]);
    exists pattern, patternIndent; (split; [exact Hc |]); [constructor |].
  apply Forall_rev. now apply HP.
Qed.

Lemma computeRanges_no_markers_Forall (RegExp_new : string -> option RegExp)
    (P : IndentRange -> Prop) model offSide minimumRangeSize rs :
  (forall st,
      loopState String_match model offSide None (-1) (defaultTo1 minimumRangeSize) 0 st ->
      Forall P (result st)) ->
  computeRanges RegExp_new String_match model offSide None minimumRangeSize = Ok rs ->
  Forall P rs.
Proof.
  intros HP H.
  destruct (computeRanges_Forall RegExp_new (fun _ _ => P) model offSide None
              minimumRangeSize rs) as (pattern & patternIndent & _ & Hall);
    [| exact H | exact Hall].
  intros pattern patternIndent st [= <- <-]. apply HP.
Qed.

End BodyCases.

(** ** Lines of a model *)

(** Below a line that is followed by a line that is not blank, there is
    a first such line. *)
Lemma first_nonblank_line (model : ITextModel) (s : Z) (n : nat) :
  (forall l, s < l <= s + Z.of_nat n -> getIndentLevel model l = -1)
  \/ exists s', s < s' <= s + Z.of_nat n
                /\ getIndentLevel model s' <> -1 /\ blankBetween model s s'.
Proof.
  induction n as [| n [IH | (s' & Hs' & Hnb & Hblank)]].
  - left. intros l Hl. lia.
  - destruct (Z.eq_dec (getIndentLevel model (s + Z.of_nat (S n))) (-1)) as [Hb | Hnb].
    + left. intros l Hl.
      destruct (Z.eq_dec l (s + Z.of_nat (S n))) as [-> | Hne]; [exact Hb |].
      apply IH. lia.
    + right. exists (s + Z.of_nat (S n)). split; [lia |]. split; [exact Hnb |].
      intros l Hl. apply IH. lia.
  - right. exists s'. split; [lia |]. now split.
Qed.

(** A strictly ascending list of integers within [(lo, hi]] has at most
    [hi - lo] elements. *)
Lemma ascending_length (l : list Z) (lo hi : Z) :
  StronglySorted Z.lt l -> Forall (fun x => lo < x <= hi) l ->
  Z.of_nat (List.length l) <= Z.max 0 (hi - lo).
Proof.
  intros Hs. revert lo. induction Hs as [| a l Hs IH Hall]; intros lo Hb.
  - simpl. lia.
  - inversion Hb as [| ? ? Ha Hb']; subst.
    assert (Hl : Forall (fun x => a < x <= hi) l).
    { rewrite Forall_forall in *. intros x Hx. specialize (Hall x Hx).
      specialize (Hb' x Hx). lia. }
    specialize (IH a Hl). cbn [List.length]. lia.
Qed.

Section Ranges.

Variable RegExp : Type.
Variable RegExp_new : string -> option RegExp.
Variable String_match : string -> RegExp -> option (option string).

Local Abbreviation ranges := (computeRanges RegExp_new String_match).

(** Without markers, on a well-formed model, every range covers a
    block. *)
Lemma computeRanges_coversBlock model offSide minimumRangeSize rs :
  wellFormedModel model ->
  ranges model offSide None minimumRangeSize = Ok rs ->
  Forall (coversBlock model) rs.
Proof.
  intros Hwf. apply computeRanges_no_markers_Forall.
  intros st Hst. apply reached_blocks in Hst; [| reflexivity | exact Hwf].
  now destruct Hst as (_ & _ & _ & Hres).
Qed.

Lemma computeRanges_range_origin model offSide markers minimumRangeSize rs :
  ranges model offSide markers minimumRangeSize = Ok rs ->
  exists pattern patternIndent,
    compileMarkers RegExp_new markers = Ok (pattern, patternIndent)
    /\ Forall (fun r =>
                 indent r = getIndentLevel model (startLineNumber r)
                 /\ indent r <> -1
                 /\ (marker r = Some true
                     /\ (exists m,
                            lineMatch String_match model pattern patternIndent
                              (startLineNumber r) (indent r) = Some m
                            /\ truthy m = true)
                     \/ marker r = None
                        /\ lineMatch String_match model pattern patternIndent
                             (startLineNumber r) (indent r) = None))
              rs.
Proof.
  apply (computeRanges_Forall RegExp String_match RegExp_new
           (fun pattern patternIndent r =>
              indent r = getIndentLevel model (startLineNumber r)
              /\ indent r <> -1
              /\ (marker r = Some true
                  /\ (exists m,
                         lineMatch String_match model pattern patternIndent
                           (startLineNumber r) (indent r) = Some m
                         /\ truthy m = true)
                  \/ marker r = None
                     /\ lineMatch String_match model pattern patternIndent
                          (startLineNumber r) (indent r) = None))).
  intros pattern patternIndent st _ Hst.
  now apply reached_range_origin in Hst.
Qed.

(** The first line of a range is a block head. *)
Lemma range_start_is_block_head model offSide minimumRangeSize rs r :
  wellFormedModel model ->
  ranges model offSide None minimumRangeSize = Ok rs ->
  In r rs -> blockHead model (startLineNumber r).
Proof.
  intros Hwf H Hr.
  pose proof (computeRanges_coversBlock _ _ _ _ Hwf H) as Hcov.
  destruct (computeRanges_range_origin _ _ _ _ _ H) as (pat & pi & _ & Horigin).
  pose proof (computeRanges_inv _ _ _ _ _ _ _ _ H) as (Hok & _).
  rewrite Forall_forall in Hcov, Horigin, Hok.
  destruct (Hcov r Hr) as ((l & Hl & Hdeep) & Hall).
  destruct (Horigin r Hr) as (Hind & Hnb & _).
  destruct (Hok r Hr) as (Hs & He & _).
  split; [congruence |].
  destruct (first_nonblank_line model (startLineNumber r)
              (Z.to_nat (endLineNumber r - startLineNumber r)))
    as [Hblank | (s' & Hs' & Hnb' & Hblank)].
  - assert (Hl' : getIndentLevel model l = -1) by (apply Hblank; lia).
    assert (Hs0 : -1 <= getIndentLevel model (startLineNumber r))
      by (apply Hwf; lia).
    lia.
  - exists s'. split; [lia |]. split; [| exact Hblank].
    destruct (Hall s') as [Hb | Hd]; [lia | contradiction | lia].
Qed.

End Ranges.

(** * Further theorems *)

(** X1: on a well-formed model, two returned ranges of which the first
    starts before the second are disjoint or nested: the first ends
    before the second starts, or the second ends no later than the
    first. *)
Theorem ranges_nested_or_disjoint
    (RegExp : Type) (RegExp_new : string -> option RegExp)
    (String_match : string -> RegExp -> option (option string))
    (model : ITextModel) (offSide : bool) (markers : option FoldMarkers)
    (minimumRangeSize : option Z) (rs : list IndentRange) (r1 r2 : IndentRange) :
  wellFormedModel model ->
  computeRanges RegExp_new String_match model offSide markers minimumRangeSize = Ok rs ->
  In r1 rs -> In r2 rs ->
  startLineNumber r1 < startLineNumber r2 ->
  endLineNumber r1 < startLineNumber r2 \/ endLineNumber r2 <= endLineNumber r1.
Proof.
  intros Hwf H H1 H2 Hlt. apply computeRanges_reached in H.
  destruct H as (pattern & patternIndent & _ & [-> | (st & Hst & ->)]);
    [contradiction |].
  apply reached_nesting in Hst; [| exact Hwf].
  destruct Hst as (_ & _ & _ & Hpair).
  apply in_rev in H1. apply in_rev in H2. now apply Hpair.
Qed.

Lemma ranges_nested_or_disjoint_witness :
  endLineNumber (new_IndentRange 1 4 0 None) < startLineNumber (new_IndentRange 2 3 1 None)
  \/ endLineNumber (new_IndentRange 2 3 1 None) <= endLineNumber (new_IndentRange 1 4 0 None).
Proof.
  apply (ranges_nested_or_disjoint LiteralRegExp literal_RegExp_new literal_match
           nestedBlocks false None (Some 1)
           [new_IndentRange 1 4 0 None; new_IndentRange 2 3 1 None]).
  - apply linesModel_wellFormed. reflexivity.
  - reflexivity.
  - simpl. left. reflexivity.
  - simpl. right. left. reflexivity.
  - simpl. lia.
Defined.

(** X2: without markers, on a well-formed model, every returned range
    covers a block: some line after its first line is deeper than the
    range's indent, and every line after its first line, up to its last,
    is blank or deeper than the range's indent. *)
Theorem range_covers_a_block
    (RegExp : Type) (RegExp_new : string -> option RegExp)
    (String_match : string -> RegExp -> option (option string))
    (model : ITextModel) (offSide : bool) (minimumRangeSize : option Z)
    (rs : list IndentRange) (r : IndentRange) :
  wellFormedModel model ->
  computeRanges RegExp_new String_match model offSide None minimumRangeSize = Ok rs ->
  In r rs ->
  (exists l, startLineNumber r < l <= endLineNumber r /\ indent r < getIndentLevel model l)
  /\ (forall l, startLineNumber r < l <= endLineNumber r ->
                getIndentLevel model l = -1 \/ indent r < getIndentLevel model l).
Proof.
  intros Hwf H Hr.
  pose proof (computeRanges_coversBlock _ _ _ _ _ _ _ Hwf H) as Hcov.
  rewrite Forall_forall in Hcov. exact (Hcov r Hr).
Qed.

Lemma range_covers_a_block_witness :
  (exists l, 1 < l <= 4 /\ 0 < getIndentLevel blockWithBlankLine l)
  /\ (forall l, 1 < l <= 4 ->
                getIndentLevel blockWithBlankLine l = -1
                \/ 0 < getIndentLevel blockWithBlankLine l).
Proof.
  apply (range_covers_a_block LiteralRegExp literal_RegExp_new literal_match
           blockWithBlankLine true None
           [new_IndentRange 1 4 0 None] (new_IndentRange 1 4 0 None)).
  - apply linesModel_wellFormed. reflexivity.
  - reflexivity.
  - simpl. left. reflexivity.
Defined.

(** X3: every returned range carries the indent level of its first
    line, and that line is not blank. *)
Theorem range_indent_is_indent_of_first_line
    (RegExp : Type) (RegExp_new : string -> option RegExp)
    (String_match : string -> RegExp -> option (option string))
    (model : ITextModel) (offSide : bool) (markers : option FoldMarkers)
    (minimumRangeSize : option Z) (rs : list IndentRange) (r : IndentRange) :
  computeRanges RegExp_new String_match model offSide markers minimumRangeSize = Ok rs ->
  In r rs ->
  indent r = getIndentLevel model (startLineNumber r)
  /\ getIndentLevel model (startLineNumber r) <> -1.
Proof.
  intros H Hr.
  destruct (computeRanges_range_origin _ _ _ _ _ _ _ _ H) as (pat & pi & _ & Hall).
  rewrite Forall_forall in Hall. destruct (Hall r Hr) as (Hind & Hnb & _).
  split; [exact Hind | congruence].
Qed.

Lemma range_indent_is_indent_of_first_line_witness :
  indent (new_IndentRange 2 3 1 None) = getIndentLevel nestedBlocks 2
  /\ getIndentLevel nestedBlocks 2 <> -1.
Proof.
  apply (range_indent_is_indent_of_first_line LiteralRegExp literal_RegExp_new
           literal_match nestedBlocks false None (Some 1)
           [new_IndentRange 1 4 0 None; new_IndentRange 2 3 1 None]).
  - reflexivity.
  - simpl. right. left. reflexivity.
Defined.

(** X4: a returned range has the marker flag exactly when its first line
    matched the start marker (under the indent constraint of the
    markers), and no flag when that line matched no marker; no range has
    the flag set to [false], and without markers no range has a flag. *)
Theorem marker_flag_tells_start_marker
    (RegExp : Type) (RegExp_new : string -> option RegExp)
    (String_match : string -> RegExp -> option (option string))
    (model : ITextModel) (offSide : bool) (markers : option FoldMarkers)
    (minimumRangeSize : option Z) (rs : list IndentRange) :
  computeRanges RegExp_new String_match model offSide markers minimumRangeSize = Ok rs ->
  (exists pattern patternIndent,
      compileMarkers RegExp_new markers = Ok (pattern, patternIndent)
      /\ forall r, In r rs ->
           marker r = Some true
           /\ (exists m,
                  lineMatch String_match model pattern patternIndent
                    (startLineNumber r) (getIndentLevel model (startLineNumber r))
                  = Some m
                  /\ truthy m = true)
           \/ marker r = None
              /\ lineMatch String_match model pattern patternIndent
                   (startLineNumber r) (getIndentLevel model (startLineNumber r))
                 = None)
  /\ (markers = None -> forall r, In r rs -> marker r = None).
Proof.
  intros H.
  destruct (computeRanges_range_origin _ _ _ _ _ _ _ _ H)
    as (pattern & patternIndent & Hc & Hall).
  rewrite Forall_forall in Hall. split.
  - exists pattern, patternIndent. split; [exact Hc |].
    intros r Hr. destruct (Hall r Hr) as (Hind & _ & Hflag).
    rewrite <- Hind. exact Hflag.
  - intros -> r Hr. injection Hc as <- <-.
    destruct (Hall r Hr) as (_ & _ & [(_ & m & Hm & _) | (Hnone & _)]);
      [discriminate Hm | exact Hnone].
Qed.

Lemma marker_flag_tells_start_marker_witness :
  (exists pattern patternIndent,
      compileMarkers literal_RegExp_new (Some regionMarkers) = Ok (pattern, patternIndent)
      /\ forall r, In r [new_IndentRange 1 3 0 (Some true)] ->
           marker r = Some true
           /\ (exists m,
                  lineMatch literal_match regionBuffer pattern patternIndent
                    (startLineNumber r) (getIndentLevel regionBuffer (startLineNumber r))
                  = Some m
                  /\ truthy m = true)
           \/ marker r = None
              /\ lineMatch literal_match regionBuffer pattern patternIndent
                   (startLineNumber r) (getIndentLevel regionBuffer (startLineNumber r))
                 = None)
  /\ (Some regionMarkers = None ->
      forall r, In r [new_IndentRange 1 3 0 (Some true)] -> marker r = None).
Proof.
  apply (marker_flag_tells_start_marker LiteralRegExp literal_RegExp_new literal_match
           regionBuffer false (Some regionMarkers) None).
  reflexivity.
Defined.

(** X5: with [offSide] off and no markers, a returned range runs up to
    the last line of the model or stops just above a line that is not
    blank and not deeper than the range's indent. *)
Theorem range_runs_to_next_shallower_line
    (RegExp : Type) (RegExp_new : string -> option RegExp)
    (String_match : string -> RegExp -> option (option string))
    (model : ITextModel) (minimumRangeSize : option Z)
    (rs : list IndentRange) (r : IndentRange) :
  computeRanges RegExp_new String_match model false None minimumRangeSize = Ok rs ->
  In r rs ->
  endLineNumber r = getLineCount model
  \/ getIndentLevel model (endLineNumber r + 1) <> -1
     /\ getIndentLevel model (endLineNumber r + 1) <= indent r.
Proof.
  intros H Hr.
  assert (Hall : Forall (fun r => endLineNumber r = getLineCount model
                                  \/ getIndentLevel model (endLineNumber r + 1) <> -1
                                     /\ getIndentLevel model (endLineNumber r + 1)
                                        <= indent r) rs).
  { revert H. apply computeRanges_no_markers_Forall.
    intros st Hst. now apply reached_range_end_not_offSide in Hst. }
  rewrite Forall_forall in Hall. now apply Hall.
Qed.

Lemma range_runs_to_next_shallower_line_witness :
  endLineNumber (new_IndentRange 2 3 1 None) = getLineCount nestedBlocks
  \/ getIndentLevel nestedBlocks (endLineNumber (new_IndentRange 2 3 1 None) + 1) <> -1
     /\ getIndentLevel nestedBlocks (endLineNumber (new_IndentRange 2 3 1 None) + 1)
        <= indent (new_IndentRange 2 3 1 None).
Proof.
  apply (range_runs_to_next_shallower_line LiteralRegExp literal_RegExp_new literal_match
           nestedBlocks (Some 1)
           [new_IndentRange 1 4 0 None; new_IndentRange 2 3 1 None]).
  - reflexivity.
  - simpl. right. left. reflexivity.
Defined.

(** X6: with [offSide] on and no markers, no returned range ends on a
    blank line: the blank lines below a block go to what follows. *)
Theorem offSide_range_ends_on_text
    (RegExp : Type) (RegExp_new : string -> option RegExp)
    (String_match : string -> RegExp -> option (option string))
    (model : ITextModel) (minimumRangeSize : option Z)
    (rs : list IndentRange) (r : IndentRange) :
  computeRanges RegExp_new String_match model true None minimumRangeSize = Ok rs ->
  In r rs ->
  getIndentLevel model (endLineNumber r) <> -1.
Proof.
  intros H Hr.
  assert (Hall : Forall (fun r => getIndentLevel model (endLineNumber r) <> -1) rs).
  { revert H. apply computeRanges_no_markers_Forall.
    intros st Hst. now apply reached_range_end_offSide in Hst. }
  rewrite Forall_forall in Hall. now apply Hall.
Qed.

Lemma offSide_range_ends_on_text_witness :
  getIndentLevel (indentsModel [0; 1; -1; 0]) (endLineNumber (new_IndentRange 1 2 0 None))
  <> -1.
Proof.
  apply (offSide_range_ends_on_text LiteralRegExp literal_RegExp_new literal_match
           (indentsModel [0; 1; -1; 0]) None [new_IndentRange 1 2 0 None]).
  - reflexivity.
  - simpl. left. reflexivity.
Defined.

(** X7: without markers, on a well-formed model and with a minimum size
    of at most 1 (the default), the first lines of the returned ranges
    are exactly the block heads: the lines that are not blank and whose
    next line that is not blank is deeper. *)
Theorem range_starts_are_the_block_heads
    (RegExp : Type) (RegExp_new : string -> option RegExp)
    (String_match : string -> RegExp -> option (option string))
    (model : ITextModel) (offSide : bool) (minimumRangeSize : option Z)
    (rs : list IndentRange) (s : Z) :
  wellFormedModel model ->
  defaultTo1 minimumRangeSize <= 1 ->
  computeRanges RegExp_new String_match model offSide None minimumRangeSize = Ok rs ->
  (exists r, In r rs /\ startLineNumber r = s) <-> 1 <= s /\ blockHead model s.
Proof.
  intros Hwf Hmin H. split.
  - intros (r & Hr & <-). split.
    + pose proof (computeRanges_inv _ _ _ _ _ _ _ _ H) as (Hok & _).
      rewrite Forall_forall in Hok. destruct (Hok r Hr) as (Hs & _). lia.
    + now apply (range_start_is_block_head RegExp RegExp_new String_match
                   model offSide minimumRangeSize rs).
  - intros (Hs & Hnb & s' & Hs' & Hdeep & Hblank).
    assert (Hn : 0 <= getLineCount model) by lia.
    destruct (computeRanges_loopState _ _ _ _ _ _ _ _ Hn H)
      as (pattern & patternIndent & st & Hc & Hst & ->).
    injection Hc as <- <-.
    destruct (reached_block_head RegExp String_match model offSide None (-1)
                (defaultTo1 minimumRangeSize) s s' 0 st) as (_ & Hdone);
      try assumption; try reflexivity; [lia |].
    destruct Hdone as (r & Hr & Hstart); [lia |].
    exists r. split; [now apply in_rev in Hr | exact Hstart].
Qed.

Lemma range_starts_are_the_block_heads_witness :
  (exists r, In r [new_IndentRange 1 4 0 None; new_IndentRange 2 3 1 None]
             /\ startLineNumber r = 2)
  <-> 1 <= 2 /\ blockHead nestedBlocks 2.
Proof.
  apply (range_starts_are_the_block_heads LiteralRegExp literal_RegExp_new literal_match
           nestedBlocks false None).
  - apply linesModel_wellFormed. reflexivity.
  - simpl. lia.
  - reflexivity.
Defined.

(** X8: the minimum range size only filters the result: the ranges
    returned under a minimum are those returned under any smaller
    minimum that pass the size test or come from markers, and the
    function throws under the one when it throws under the other. *)
Theorem minimumRangeSize_filters_the_result
    (RegExp : Type) (RegExp_new : string -> option RegExp)
    (String_match : string -> RegExp -> option (option string))
    (model : ITextModel) (offSide : bool) (markers : option FoldMarkers)
    (min min' : option Z) :
  defaultTo1 min' <= defaultTo1 min ->
  computeRanges RegExp_new String_match model offSide markers min
  = Result_map (filter (keepBySize (defaultTo1 min)))
      (computeRanges RegExp_new String_match model offSide markers min').
Proof.
  intros Hmin. unfold computeRanges.
  destruct (compileMarkers RegExp_new markers) as [[pattern patternIndent] | e];
    [| reflexivity].
  simpl.
  pose proof (forLines_minimumRangeSize RegExp String_match model offSide pattern
                patternIndent (defaultTo1 min) (defaultTo1 min')
                (Z.to_nat (getLineCount model)) (initialState model)
                (initialState model) Hmin eq_refl eq_refl) as Hsim.
  destruct (forLines String_match model offSide pattern patternIndent (defaultTo1 min')
              (Z.to_nat (getLineCount model)) (initialState model)) as [st2 | e].
  - destruct Hsim as (st & -> & Hres). simpl. rewrite Hres.
    f_equal. symmetry. apply filter_rev.
  - rewrite Hsim. reflexivity.
Qed.

Lemma minimumRangeSize_filters_the_result_witness :
  computeRangesLiteral nestedBlocks false None (Some 2)
  = Result_map (filter (keepBySize (defaultTo1 (Some 2))))
      (computeRangesLiteral nestedBlocks false None None).
Proof.
  apply (minimumRangeSize_filters_the_result LiteralRegExp literal_RegExp_new
           literal_match nestedBlocks false None (Some 2) None).
  simpl. lia.
Defined.

Lemma linesModel_no_blank_line (lines : list (Z * string)) :
  forallb (fun l => negb (fst l =? -1)) lines = true ->
  forall line, 1 <= line <= getLineCount (linesModel lines) ->
               getIndentLevel (linesModel lines) line <> -1.
Proof.
  intros H line Hline. simpl in *.
  rewrite forallb_forall in H.
  assert (Hin : In (nth (Z.to_nat (line - 1)) lines (-1, EmptyString)) lines).
  { apply nth_In. lia. }
  apply H in Hin. apply negb_true_iff in Hin. now apply Z.eqb_neq in Hin.
Qed.

(** X9: on a model without blank lines the [offSide] flag plays no
    part: both values give the same result. *)
Theorem offSide_irrelevant_without_blank_lines
    (RegExp : Type) (RegExp_new : string -> option RegExp)
    (String_match : string -> RegExp -> option (option string))
    (model : ITextModel) (markers : option FoldMarkers) (minimumRangeSize : option Z) :
  (forall line, 1 <= line <= getLineCount model -> getIndentLevel model line <> -1) ->
  computeRanges RegExp_new String_match model true markers minimumRangeSize
  = computeRanges RegExp_new String_match model false markers minimumRangeSize.
Proof.
  intros Hall. unfold computeRanges.
  destruct (compileMarkers RegExp_new markers) as [[pattern patternIndent] | e];
    [| reflexivity].
  simpl. rewrite forLines_offSide; [reflexivity |].
  intros line Hline. apply Hall. lia.
Qed.

Lemma offSide_irrelevant_without_blank_lines_witness :
  computeRangesLiteral regionBuffer true (Some regionMarkers) None
  = computeRangesLiteral regionBuffer false (Some regionMarkers) None.
Proof.
  apply (offSide_irrelevant_without_blank_lines LiteralRegExp literal_RegExp_new
           literal_match regionBuffer (Some regionMarkers) None).
  apply linesModel_no_blank_line. reflexivity.
Defined.

(** X10: without markers, on a well-formed model in which no line is
    deeper than a line above it that is not blank, [computeRanges]
    returns no range, whatever the minimum size; a buffer of uniform
    indentation is such a model. *)
Theorem no_deeper_line_no_range
    (RegExp : Type) (RegExp_new : string -> option RegExp)
    (String_match : string -> RegExp -> option (option string))
    (model : ITextModel) (offSide : bool) (minimumRangeSize : option Z) :
  wellFormedModel model ->
  (forall l1 l2, 1 <= l1 < l2 /\ l2 <= getLineCount model ->
                 getIndentLevel model l1 <> -1 ->
                 getIndentLevel model l2 <= getIndentLevel model l1) ->
  computeRanges RegExp_new String_match model offSide None minimumRangeSize = Ok [].
Proof.
  intros Hwf Hflat.
  destruct (computeRanges_total RegExp RegExp_new String_match model offSide None
              minimumRangeSize Hwf) as (rs & H); [discriminate |].
  rewrite H. f_equal. destruct rs as [| r rs]; [reflexivity | exfalso].
  assert (Hr : In r (r :: rs)) by now left.
  pose proof (computeRanges_inv _ _ _ _ _ _ _ _ H) as (Hok & _).
  rewrite Forall_forall in Hok. destruct (Hok r Hr) as (Hs & _).
  destruct (range_start_is_block_head RegExp RegExp_new String_match model offSide
              minimumRangeSize (r :: rs) r Hwf H Hr)
    as (Hnb & l & Hl & Hdeep & _).
  specialize (Hflat (startLineNumber r) l). lia.
Qed.

Lemma no_deeper_line_no_range_witness :
  computeRangesLiteral (indentsModel [2; 2; -1; 2]) true None (Some 0) = Ok [].
Proof.
  apply (no_deeper_line_no_range LiteralRegExp literal_RegExp_new literal_match
           (indentsModel [2; 2; -1; 2]) true (Some 0)).
  - apply linesModel_wellFormed. reflexivity.
  - intros l1 l2 Hl Hnb. simpl in Hl.
    assert (H1 : l1 = 1 \/ l1 = 2 \/ l1 = 3) by lia.
    assert (H2 : l2 = 2 \/ l2 = 3 \/ l2 = 4) by lia.
    destruct H1 as [-> | [-> | ->]]; destruct H2 as [-> | [-> | ->]];
      vm_compute; try discriminate; now elim Hnb.
Defined.

Lemma strictly_ascending_NoDup (l : list Z) : StronglySorted Z.lt l -> NoDup l.
Proof.
  induction 1 as [| a l _ IH Hall]; constructor; [| exact IH].
  intros Hin. rewrite Forall_forall in Hall. specialize (Hall a Hin). lia.
Qed.

Lemma StronglySorted_map_start (rs : list IndentRange) :
  StronglySorted (fun a b => startLineNumber a < startLineNumber b) rs ->
  StronglySorted Z.lt (map startLineNumber rs).
Proof.
  induction 1 as [| a l _ IH Hall]; simpl; constructor; [exact IH |].
  apply Forall_map. exact Hall.
Qed.

(** X11: no two returned ranges start on the same line, and there are
    at most as many ranges as the model has lines. *)
Theorem at_most_one_range_per_line
    (RegExp : Type) (RegExp_new : string -> option RegExp)
    (String_match : string -> RegExp -> option (option string))
    (model : ITextModel) (offSide : bool) (markers : option FoldMarkers)
    (minimumRangeSize : option Z) (rs : list IndentRange) :
  computeRanges RegExp_new String_match model offSide markers minimumRangeSize = Ok rs ->
  NoDup (map startLineNumber rs)
  /\ Z.of_nat (List.length rs) <= Z.max 0 (getLineCount model).
Proof.
  intros H. apply computeRanges_inv in H. destruct H as (Hok & Hsorted).
  apply StronglySorted_map_start in Hsorted. split.
  - now apply strictly_ascending_NoDup.
  - rewrite <- (length_map startLineNumber).
    replace (getLineCount model) with (getLineCount model - 0) by lia.
    apply ascending_length; [exact Hsorted |].
    apply Forall_map. revert Hok. apply Forall_impl.
    intros r (Hs & Hb & _). lia.
Qed.

Lemma at_most_one_range_per_line_witness :
  NoDup (map startLineNumber [new_IndentRange 1 4 0 None; new_IndentRange 2 3 1 None])
  /\ Z.of_nat (List.length [new_IndentRange 1 4 0 None; new_IndentRange 2 3 1 None])
     <= Z.max 0 (getLineCount nestedBlocks).
Proof.
  apply (at_most_one_range_per_line LiteralRegExp literal_RegExp_new literal_match
           nestedBlocks false None (Some 1)).
  reflexivity.
Defined.



(** With [offSide] on this fails: a blank line just above the end
    marker takes over the pending boundary, and the range from markers
    stops on the blank line, short of the end-marker line. *)
Example offSide_marker_range_stops_on_blank_line :
  computeRangesLiteral
    (linesModel [(0, "#region"); (0, "code"); (-1, ""); (0, "#endregion")])
    true (Some regionMarkers) None
  = Ok [new_IndentRange 1 3 0 (Some true)].
Proof. reflexivity. Qed.

(** X13: cloning a clone changes nothing, and [deepCloneArr] returns an
    array equal to its argument exactly when no range of the argument
    has a marker flag. *)
Theorem deepCloneArr_idempotent :
  (forall indentRanges clones,
      deepCloneArr indentRanges = Ok clones -> deepCloneArr clones = Ok clones)
  /\ (forall indentRanges,
         deepCloneArr indentRanges = Ok indentRanges
         <-> Forall (fun r => marker r = None) indentRanges).
Proof.
  split.
  - intros indentRanges clones H. rewrite deepCloneArr_map in H. injection H as <-.
    rewrite deepCloneArr_map. f_equal. rewrite map_map. reflexivity.
  - intros indentRanges. rewrite deepCloneArr_map. split.
    + intros [= H]. induction indentRanges as [| r l IH]; constructor.
      * injection H as Hr _. destruct r as [s e i mk]. unfold cloneOf in Hr.
        simpl in *. congruence.
      * apply IH. now injection H.
    + intros Hall. f_equal. induction Hall as [| r l Hr _ IH]; [reflexivity |].
      simpl. rewrite IH. f_equal. destruct r as [s e i mk]. simpl in *. now subst.
Qed.

Lemma deepCloneArr_idempotent_witness :
  deepCloneArr [new_IndentRange 1 3 0 None] = Ok [new_IndentRange 1 3 0 None].
Proof.
  apply (proj1 deepCloneArr_idempotent [new_IndentRange 1 3 0 (Some true)]).
  reflexivity.
Defined.

(** ** What the function reads of the model *)

Section Reads.

Variable RegExp : Type.
Variable String_match : string -> RegExp -> option (option string).
Variable offSide : bool.
Variable pattern : option RegExp.
Variable patternIndent : Z.
Variable minimumRangeSize : Z.

Local Abbreviation run model :=
  (forLines String_match model offSide pattern patternIndent minimumRangeSize).
Local Abbreviation body model :=
  (step String_match model offSide pattern patternIndent minimumRangeSize).

(** Two models are alike at a line when they give it the same indent
    level and, as far as a pattern is there to match, the same content. *)
Lemma step_alike model model' line (st : State RegExp) :
  getIndentLevel model line = getIndentLevel model' line ->
  (pattern <> None -> getLineContent model line = getLineContent model' line) ->
  body model line st = body model' line st.
Proof.
  intros Hi Hc. unfold step, lineMatch. rewrite Hi.
  destruct pattern as [re |]; [| reflexivity].
  rewrite Hc by discriminate. reflexivity.
Qed.

Lemma forLines_alike model model' n (st : State RegExp) :
  (forall line, 1 <= line <= Z.of_nat n ->
     getIndentLevel model line = getIndentLevel model' line
     /\ (pattern <> None -> getLineContent model line = getLineContent model' line)) ->
  run model n st = run model' n st.
Proof.
  revert st. induction n as [| k IH]; intros st Hagree; [reflexivity |].
  cbn [forLines].
  rewrite (step_alike model model' (Z.of_nat (S k)) st)
    by (apply Hagree; lia).
  destruct (body model' (Z.of_nat (S k)) st) as [st1 | e]; [| reflexivity].
  simpl. apply IH. intros line Hline. apply Hagree. lia.
Qed.

(** The body adds ranges that start on the visited line only. *)
Lemma step_adds_ranges_of_line model line (st st' : State RegExp) :
  body model line st = Ok st' ->
  exists added, result st' = result st ++ added
                /\ Forall (fun r => startLineNumber r = line) added.
Proof.
  intros H. apply step_cases in H.
  destruct H as [p below Hb Hoff Heq | Hb Hoff | m Hb Hmatch Htruthy
                | m popped q rest Hb Hmatch Htruthy Heq Hall Hq
                | m popped q rest Hb Hmatch Htruthy Heq Hall Hq Hqm
                | q rest Hb Hmatch Heq Hq
                | p popped q rest Hb Hmatch Heq Hall Hq]; simpl;
    try (exists []; split; [now rewrite app_nil_r | constructor]).
  - eexists. split; [reflexivity |]. constructor; [reflexivity | constructor].
  - eexists. split; [reflexivity |]. unfold emitted.
    destruct (minimumRangeSize <=? pr_line q - 1 - line); constructor;
      [reflexivity | constructor].
Qed.

Lemma forLines_adds_ranges_above model n (st st' : State RegExp) :
  run model n st = Ok st' ->
  exists added, result st' = result st ++ added
                /\ Forall (fun r => startLineNumber r <= Z.of_nat n) added.
Proof.
  revert st. induction n as [| k IH]; intros st H.
  - simpl in H. injection H as <-. exists []. split; [now rewrite app_nil_r | constructor].
  - cbn [forLines] in H. bind_inv H as st1 Hstep.
    apply step_adds_ranges_of_line in Hstep. destruct Hstep as (a1 & Hr1 & Ha1).
    apply IH in H. destruct H as (a2 & Hr2 & Ha2).
    exists (a1 ++ a2). split; [now rewrite Hr2, Hr1, app_assoc |].
    apply Forall_app. split.
    + revert Ha1. apply Forall_impl. intros r Hr. lia.
    + revert Ha2. apply Forall_impl. intros r Hr. lia.
Qed.

Lemma filter_none_below (k : Z) (added : list IndentRange) :
  Forall (fun r => startLineNumber r <= k) added ->
  filter (fun r => k <? startLineNumber r) added = [].
Proof.
  induction 1 as [| r l Hr _ IH]; [reflexivity |]. simpl.
  destruct (k <? startLineNumber r) eqn:E; [lia | exact IH].
Qed.

(** Two models alike below line [k] give the same ranges below [k]. *)
Lemma forLines_alike_below model model' (k d : nat) (st s1 s2 : State RegExp) :
  (forall line, Z.of_nat k < line <= Z.of_nat (k + d) ->
     getIndentLevel model line = getIndentLevel model' line
     /\ (pattern <> None -> getLineContent model line = getLineContent model' line)) ->
  run model (k + d) st = Ok s1 ->
  run model' (k + d) st = Ok s2 ->
  filter (fun r => Z.of_nat k <? startLineNumber r) (result s1)
  = filter (fun r => Z.of_nat k <? startLineNumber r) (result s2).
Proof.
  revert st. induction d as [| d IH]; intros st Hagree H1 H2.
  - rewrite Nat.add_0_r in H1, H2.
    apply forLines_adds_ranges_above in H1. destruct H1 as (a1 & Hr1 & Ha1).
    apply forLines_adds_ranges_above in H2. destruct H2 as (a2 & Hr2 & Ha2).
    rewrite Hr1, Hr2, !filter_app.
    rewrite (filter_none_below _ a1 Ha1), (filter_none_below _ a2 Ha2). reflexivity.
  - replace (k + S d)%nat with (S (k + d)) in * by lia.
    cbn [forLines] in H1, H2.
    rewrite <- (step_alike model model' (Z.of_nat (S (k + d))) st) in H2
      by (apply Hagree; lia).
    bind_inv H1 as st1 Hstep. rewrite Hstep in H2. simpl in H2.
    apply (IH st1); try assumption.
    intros line Hline. apply Hagree. lia.
Qed.


End Reads.



(** X15: [computeRanges] reads the model on the lines 1 to [lineCount]
    only, and reads line contents only when markers are given: two
    models with the same line count that agree there give the same
    result. *)
Theorem computeRanges_reads_the_lines_of_the_model
    (RegExp : Type) (RegExp_new : string -> option RegExp)
    (String_match : string -> RegExp -> option (option string))
    (model model' : ITextModel) (offSide : bool) (markers : option FoldMarkers)
    (minimumRangeSize : option Z) :
  getLineCount model = getLineCount model' ->
  (forall line, 1 <= line <= getLineCount model ->
     getIndentLevel model line = getIndentLevel model' line
     /\ (markers <> None -> getLineContent model line = getLineContent model' line)) ->
  computeRanges RegExp_new String_match model offSide markers minimumRangeSize
  = computeRanges RegExp_new String_match model' offSide markers minimumRangeSize.
Proof.
  intros Hn Hagree. unfold computeRanges.
  destruct (compileMarkers RegExp_new markers) as [[pattern patternIndent] | e] eqn:Hc;
    [| reflexivity].
  simpl. unfold initialState. rewrite <- Hn.
  rewrite (forLines_alike RegExp String_match offSide pattern patternIndent
             (defaultTo1 minimumRangeSize) model model'); [reflexivity |].
  intros line Hline. destruct (Hagree line) as (Hi & Hcontent); [lia |].
  split; [exact Hi |]. intros Hpat. apply Hcontent. intros ->.
  simpl in Hc. injection Hc as <- _. congruence.
Qed.

Lemma computeRanges_reads_the_lines_of_the_model_witness :
  computeRangesLiteral nestedBlocks false None None
  = computeRangesLiteral
      (linesModel [(0, "function f() {"); (1, "if (x) {"); (2, "return 1;");
                   (1, "}"); (0, "}")])
      false None None.
Proof.
  apply (computeRanges_reads_the_lines_of_the_model LiteralRegExp literal_RegExp_new
           literal_match nestedBlocks
           (linesModel [(0, "function f() {"); (1, "if (x) {"); (2, "return 1;");
                        (1, "}"); (0, "}")])
           false None None).
  - reflexivity.
  - intros line Hline. simpl in Hline. split; [| congruence].
    assert (Hcases : line = 1 \/ line = 2 \/ line = 3 \/ line = 4 \/ line = 5) by lia.
    destruct Hcases as [-> | [-> | [-> | [-> | ->]]]]; reflexivity.
Defined.

(** X16: the ranges below a line do not depend on the lines at or above
    it: two models with the same line count that agree below line [k]
    give, when both runs return, the same ranges starting below [k]. *)
Theorem ranges_below_a_line_ignore_the_lines_above
    (RegExp : Type) (RegExp_new : string -> option RegExp)
    (String_match : string -> RegExp -> option (option string))
    (model model' : ITextModel) (offSide : bool) (markers : option FoldMarkers)
    (minimumRangeSize : option Z) (k : Z) (rs rs' : list IndentRange) :
  getLineCount model = getLineCount model' ->
  0 <= k <= getLineCount model ->
  (forall line, k < line <= getLineCount model ->
     getIndentLevel model line = getIndentLevel model' line
     /\ getLineContent model line = getLineContent model' line) ->
  computeRanges RegExp_new String_match model offSide markers minimumRangeSize = Ok rs ->
  computeRanges RegExp_new String_match model' offSide markers minimumRangeSize = Ok rs' ->
  filter (fun r => k <? startLineNumber r) rs
  = filter (fun r => k <? startLineNumber r) rs'.
Proof.
  intros Hn Hk Hagree H H'.
  set (kn := Z.to_nat k). assert (Hkn : k = Z.of_nat kn) by lia.
  clearbody kn. subst k.
  unfold computeRanges in H, H'.
  destruct (compileMarkers RegExp_new markers) as [[pattern patternIndent] | e];
    [| discriminate H].
  simpl in H, H'. unfold initialState in H'. rewrite <- Hn in H'.
  bind_inv H as s1 H1. injection H as <-.
  bind_inv H' as s2 H2. injection H' as <-.
  rewrite !filter_rev. f_equal.
  replace (Z.to_nat (getLineCount model))
    with (kn + (Z.to_nat (getLineCount model) - kn))%nat in H1, H2 by lia.
  apply (forLines_alike_below RegExp String_match offSide pattern patternIndent
           (defaultTo1 minimumRangeSize) model model' kn _ _ s1 s2) in H1;
    [exact H1 | | exact H2].
  intros line Hline. destruct (Hagree line) as (Hi & Hc); [lia |]. now split.
Qed.

Lemma ranges_below_a_line_ignore_the_lines_above_witness :
  filter (fun r => 1 <? startLineNumber r)
    [new_IndentRange 1 4 0 None; new_IndentRange 2 3 1 None]
  = filter (fun r => 1 <? startLineNumber r) [new_IndentRange 2 3 1 None].
Proof.
  apply (ranges_below_a_line_ignore_the_lines_above LiteralRegExp literal_RegExp_new
           literal_match nestedBlocks (setIndentLevel nestedBlocks 1 1) false None
           (Some 1) 1).
  - reflexivity.
  - simpl. lia.
  - intros line Hline. simpl in Hline. split; [| reflexivity].
    assert (Hcases : line = 2 \/ line = 3 \/ line = 4 \/ line = 5) by lia.
    destruct Hcases as [-> | [-> | [-> | ->]]]; reflexivity.
  - reflexivity.
  - reflexivity.
Defined.

(** ** What [offSide] changes *)

Section OffSideTrims.

Variable RegExp : Type.
Variable String_match : string -> RegExp -> option (option string).
Variable model : ITextModel.
Variable minimumRangeSize : Z.

Local Abbreviation caseOn :=
  (bodyCase String_match model true None (-1) minimumRangeSize).
Local Abbreviation caseOff :=
  (bodyCase String_match model false None (-1) minimumRangeSize).
Local Abbreviation related := (Forall2 (@aboveBlankLines RegExp model)).

Lemma related_split indent (p1 p2 : list (PreviousRegion RegExp)) q1 q2 r1 r2 :
  related (p1 ++ q1 :: r1) (p2 ++ q2 :: r2) ->
  Forall (fun p => indent < pr_indent p) p1 -> pr_indent q1 <= indent ->
  Forall (fun p => indent < pr_indent p) p2 -> pr_indent q2 <= indent ->
  aboveBlankLines model q1 q2 /\ related r1 r2.
Proof.
  revert p2. induction p1 as [| a p1 IH]; intros p2 H Hp1 Hq1 Hp2 Hq2.
  - destruct p2 as [| b p2]; simpl in H.
    + inversion H; subst. now split.
    + inversion H as [| ? ? ? ? (Hi & _) _]; subst.
      inversion Hp2; subst. lia.
  - destruct p2 as [| b p2]; simpl in H.
    + inversion H as [| ? ? ? ? (Hi & _) _]; subst.
      inversion Hp1; subst. lia.
    + inversion H; subst. inversion Hp1; subst. inversion Hp2; subst.
      now apply (IH p2).
Qed.

Lemma related_settle line indent (q1 q2 : PreviousRegion RegExp) r1 r2 :
  aboveBlankLines model q1 q2 -> related r1 r2 ->
  related (settle line indent q1 r1) (settle line indent q2 r2).
Proof.
  intros Hq Hr. unfold settle. destruct Hq as (Hi & Hq). rewrite <- Hi.
  destruct (pr_indent q1 =? indent).
  - constructor; [| exact Hr]. repeat split; simpl; [exact Hi | lia | intros l Hl; lia].
  - constructor; [| constructor; [now split | exact Hr]].
    repeat split; simpl; [lia | intros l Hl; lia].
Qed.

(** One line visited by both runs. *)
Lemma case_offSide_related line (s1 s2 s1' s2' : State RegExp) :
  minimumRangeSize <= 1 ->
  stackShape line (previousRegions s1) ->
  (exists e rest, previousRegions s1 = e :: rest /\ pr_line e = line + 1) ->
  related (previousRegions s1) (previousRegions s2) ->
  Forall2 (trimsBlankLines model) (result s1) (result s2) ->
  caseOn line s1 s1' -> caseOff line s2 s2' ->
  related (previousRegions s1') (previousRegions s2')
  /\ Forall2 (trimsBlankLines model) (result s1') (result s2').
Proof.
  intros Hmin Hshape (e & below & Htop & Hline) Hrel Hres H1 H2.
  destruct H1 as [p1 below1 Hb1 _ Heq1 | Hb1 Hoff1 | m1 _ Hm1 _
                 | m1 popped1 q1 rest1 _ Hm1 _ _ _ _
                 | m1 popped1 q1 rest1 _ Hm1 _ _ _ _ _
                 | q1 rest1 Hb1 _ Heq1 Hq1
                 | p1 popped1 q1 rest1 Hb1 _ Heq1 Hall1 Hq1];
    try discriminate.
  - destruct H2 as [p2 below2 Hb2 Hoff2 Heq2 | Hb2 _ | m2 _ Hm2 _
                   | m2 popped2 q2 rest2 _ Hm2 _ _ _ _
                   | m2 popped2 q2 rest2 _ Hm2 _ _ _ _ _
                   | q2 rest2 Hb2 _ Heq2 Hq2
                   | p2 popped2 q2 rest2 Hb2 _ Heq2 Hall2 Hq2];
      try discriminate; try contradiction.
    cbn [previousRegions result]. split; [| exact Hres].
    rewrite Heq1 in Hrel, Htop. injection Htop as <- <-.
    inversion Hrel as [| ? e2 ? rest2 (Hi & Hle & Hblank) Hrest Hs1 Hs2]; subst.
    constructor; [| exact Hrest]. repeat split; simpl; [exact Hi | lia |].
    intros l Hl. destruct (Z.eq_dec l line) as [-> | Hne]; [exact Hb1 |].
    apply Hblank. lia.
  - destruct H2 as [p2 below2 Hb2 Hoff2 Heq2 | Hb2 _ | m2 _ Hm2 _
                   | m2 popped2 q2 rest2 _ Hm2 _ _ _ _
                   | m2 popped2 q2 rest2 _ Hm2 _ _ _ _ _
                   | q2 rest2 Hb2 _ Heq2 Hq2
                   | p2 popped2 q2 rest2 Hb2 _ Heq2 Hall2 Hq2];
      try discriminate; try contradiction.
    + cbn [previousRegions result]. split; [| exact Hres].
      rewrite Heq1, Heq2 in Hrel. inversion Hrel; subst.
      now apply related_settle.
    + exfalso. rewrite Heq1, Heq2 in Hrel. simpl in Hrel.
      inversion Hrel as [| ? ? ? ? (Hi & _) _]; subst.
      inversion Hall2; subst. lia.
  - destruct H2 as [p2 below2 Hb2 Hoff2 Heq2 | Hb2 _ | m2 _ Hm2 _
                   | m2 popped2 q2 rest2 _ Hm2 _ _ _ _
                   | m2 popped2 q2 rest2 _ Hm2 _ _ _ _ _
                   | q2 rest2 Hb2 _ Heq2 Hq2
                   | p2 popped2 q2 rest2 Hb2 _ Heq2 Hall2 Hq2];
      try discriminate; try contradiction.
    + exfalso. rewrite Heq1, Heq2 in Hrel. simpl in Hrel.
      inversion Hrel as [| ? ? ? ? (Hi & _) _]; subst.
      inversion Hall1; subst. lia.
    + cbn [previousRegions result].
      rewrite Heq1, Heq2 in Hrel.
      destruct (related_split (getIndentLevel model line) (p1 :: popped1)
                  (p2 :: popped2) q1 q2 rest1 rest2 Hrel Hall1 Hq1 Hall2 Hq2)
        as (Hq & Hrest).
      split; [now apply related_settle |].
      apply Forall2_app; [exact Hres |].
      rewrite Heq1 in Hshape. destruct Hshape as (Hsorted & Hlines & _).
      pose proof (sorted_before RegExp q1 (p1 :: popped1) rest1 Hsorted) as Hbefore.
      assert (Hpq : pr_line p1 < pr_line q1) by (inversion Hbefore; assumption).
      assert (Hp : line < pr_line p1) by (inversion Hlines; assumption).
      destruct Hq as (Hi & Hle & Hblank).
      unfold emitted.
      destruct (minimumRangeSize <=? pr_line q1 - 1 - line) eqn:E1; [| lia].
      destruct (minimumRangeSize <=? pr_line q2 - 1 - line) eqn:E2; [| lia].
      constructor; [| constructor].
      repeat split; simpl; try lia. intros l Hl. apply Hblank. lia.
Qed.

(** The two runs, line by line. *)
Lemma forLines_offSide_related n (s1 s2 s1' s2' : State RegExp) :
  wellFormedModel model -> minimumRangeSize <= 1 ->
  loopState String_match model true None (-1) minimumRangeSize (Z.of_nat n) s1 ->
  related (previousRegions s1) (previousRegions s2) ->
  Forall2 (trimsBlankLines model) (result s1) (result s2) ->
  forLines String_match model true None (-1) minimumRangeSize n s1 = Ok s1' ->
  forLines String_match model false None (-1) minimumRangeSize n s2 = Ok s2' ->
  Forall2 (trimsBlankLines model) (result s1') (result s2').
Proof.
  intros Hwf Hmin. revert s1 s2.
  induction n as [| k IH]; intros s1 s2 Hreached Hrel Hres H1 H2.
  - simpl in H1, H2. injection H1 as <-. injection H2 as <-. exact Hres.
  - cbn [forLines] in H1, H2.
    bind_inv H1 as t1 Hstep1. bind_inv H2 as t2 Hstep2.
    assert (Hreached' : loopState String_match model true None (-1) minimumRangeSize
                          (Z.of_nat k) t1).
    { replace (Z.of_nat k) with (Z.of_nat (S k) - 1) by lia.
      apply loop_iterate with (st := s1); [exact Hreached | lia | exact Hstep1]. }
    destruct (case_offSide_related (Z.of_nat (S k)) s1 s2 t1 t2) as (Hrel' & Hres');
      try assumption.
    + apply (reached_nesting RegExp String_match model true None (-1) minimumRangeSize);
        assumption.
    + destruct (reached_range_end_offSide RegExp String_match model true None (-1)
                  minimumRangeSize (Z.of_nat (S k)) s1 eq_refl eq_refl Hreached)
        as ((e & rest & Heq & Hline & _) & _).
      now exists e, rest.
    + now apply step_cases.
    + now apply step_cases.
    + now apply (IH t1 t2).
Qed.

End OffSideTrims.

Lemma Forall2_reverse {A B : Type} (R : A -> B -> Prop) (l1 : list A) (l2 : list B) :
  Forall2 R l1 l2 -> Forall2 R (rev l1) (rev l2).
Proof.
  induction 1 as [| a b l1 l2 Hab _ IH]; simpl; [constructor |].
  apply Forall2_app; [exact IH |]. constructor; [exact Hab | constructor].
Qed.

(** X17: without markers, on a well-formed model and with a minimum size
    of at most 1, the run with [offSide] returns the ranges of the run
    without it, with the blank lines at their ends cut off: both runs
    return, range by range the first line and the indent are the same,
    and the range under [offSide] ends no later, only blank lines lying
    between the two ends. *)
Theorem offSide_trims_blank_lines
    (RegExp : Type) (RegExp_new : string -> option RegExp)
    (String_match : string -> RegExp -> option (option string))
    (model : ITextModel) (minimumRangeSize : option Z) :
  wellFormedModel model ->
  defaultTo1 minimumRangeSize <= 1 ->
  exists rsOn rsOff,
    computeRanges RegExp_new String_match model true None minimumRangeSize = Ok rsOn
    /\ computeRanges RegExp_new String_match model false None minimumRangeSize = Ok rsOff
    /\ Forall2 (fun r r' =>
                  startLineNumber r = startLineNumber r'
                  /\ indent r = indent r'
                  /\ marker r = marker r'
                  /\ endLineNumber r <= endLineNumber r'
                  /\ forall l, endLineNumber r < l <= endLineNumber r' ->
                               getIndentLevel model l = -1)
               rsOn rsOff.
Proof.
  intros Hwf Hmin.
  destruct (computeRanges_total RegExp RegExp_new String_match model true None
              minimumRangeSize Hwf) as (rsOn & HOn); [discriminate |].
  destruct (computeRanges_total RegExp RegExp_new String_match model false None
              minimumRangeSize Hwf) as (rsOff & HOff); [discriminate |].
  exists rsOn, rsOff. split; [exact HOn |]. split; [exact HOff |].
  unfold computeRanges in HOn, HOff. simpl in HOn, HOff.
  bind_inv HOn as s1 H1. injection HOn as <-.
  bind_inv HOff as s2 H2. injection HOff as <-.
  destruct (Z_lt_le_dec (getLineCount model) 0) as [Hneg | Hpos].
  - replace (Z.to_nat (getLineCount model)) with O in H1, H2 by lia.
    simpl in H1, H2. injection H1 as <-. injection H2 as <-. constructor.
  - apply Forall2_reverse.
    apply (forLines_offSide_related RegExp String_match model
             (defaultTo1 minimumRangeSize) (Z.to_nat (getLineCount model))
             (initialState model) (initialState model) s1 s2);
      try assumption.
    + rewrite Z2Nat.id by lia. apply loop_enter.
    + constructor; [| constructor]. repeat split; simpl; [lia | intros l Hl; lia].
    + constructor.
Qed.

Lemma offSide_trims_blank_lines_witness :
  exists rsOn rsOff,
    computeRangesLiteral (indentsModel [0; 1; -1; 0]) true None None = Ok rsOn
    /\ computeRangesLiteral (indentsModel [0; 1; -1; 0]) false None None = Ok rsOff
    /\ Forall2 (fun r r' =>
                  startLineNumber r = startLineNumber r'
                  /\ indent r = indent r'
                  /\ marker r = marker r'
                  /\ endLineNumber r <= endLineNumber r'
                  /\ forall l, endLineNumber r < l <= endLineNumber r' ->
                               getIndentLevel (indentsModel [0; 1; -1; 0]) l = -1)
               rsOn rsOff.
Proof.
  apply (offSide_trims_blank_lines LiteralRegExp literal_RegExp_new literal_match
           (indentsModel [0; 1; -1; 0]) None).
  - apply linesModel_wellFormed. reflexivity.
  - simpl. lia.
Defined.

(** ** The minimum range size and the ranges from markers *)

(** The result under a minimum is the result under a smaller minimum,
    filtered. *)
Lemma computeRanges_under_smaller_minimum
    (RegExp : Type) (RegExp_new : string -> option RegExp)
    (String_match : string -> RegExp -> option (option string))
    (model : ITextModel) (offSide : bool) (markers : option FoldMarkers) (min min' : Z) :
  min' <= min ->
  computeRanges RegExp_new String_match model offSide markers (Some min)
  = Result_map (filter (keepBySize min))
      (computeRanges RegExp_new String_match model offSide markers (Some min')).
Proof.
  intros Hmin. unfold computeRanges.
  destruct (compileMarkers RegExp_new markers) as [[pattern patternIndent] | e];
    [| reflexivity].
  simpl.
  pose proof (forLines_minimumRangeSize RegExp String_match model offSide pattern
                patternIndent min min' (Z.to_nat (getLineCount model))
                (initialState model) (initialState model) Hmin eq_refl eq_refl) as Hsim.
  destruct (forLines String_match model offSide pattern patternIndent min'
              (Z.to_nat (getLineCount model)) (initialState model)) as [st2 | e].
  - destruct Hsim as (st & -> & Hres). simpl. rewrite Hres.
    f_equal. symmetry. apply filter_rev.
  - rewrite Hsim. reflexivity.
Qed.

(** The size test lets every range with the marker flag through. *)
Lemma marker_ranges_pass_keepBySize (min : Z) (rs : list IndentRange) :
  filter (fun r => match marker r with Some true => true | _ => false end)
    (filter (keepBySize min) rs)
  = filter (fun r => match marker r with Some true => true | _ => false end) rs.
Proof.
  induction rs as [| r rs IH]; [reflexivity |].
  destruct r as [s e i mk]. cbn [filter]. unfold keepBySize at 1. cbn [marker].
  destruct mk as [[|] |]; cbn [startLineNumber endLineNumber].
  - cbn [filter marker]. now rewrite IH.
  - destruct (min <=? e - s); cbn [filter marker]; exact IH.
  - destruct (min <=? e - s); cbn [filter marker]; exact IH.
Qed.

(** C4: a returned range whose [marker] is not [true] spans at least
    [minimumRangeSize] lines ([endLineNumber - startLineNumber]), while
    the ranges from markers do not take the size test.  A start marker
    closes the pending end marker and emits its range whatever
    [minimumRangeSize] is, also after it has discarded the regions of
    the lines between the two markers; the ranges with [marker = true]
    that [computeRanges] returns are the same under any two minimum
    sizes; and the buffer ['#region'], ['code'], ['#endregion'] keeps
    its marker range of span 2 under a minimum of 5, as the empty region
    keeps its range of span 1. *)
Theorem minimum_size_filters_indent_ranges_only :
  (forall (RegExp : Type) (RegExp_new : string -> option RegExp)
          (String_match : string -> RegExp -> option (option string))
          (model : ITextModel) (offSide : bool) (markers : option FoldMarkers)
          (minimumRangeSize : option Z) (rs : list IndentRange) (r : IndentRange),
      computeRanges RegExp_new String_match model offSide markers minimumRangeSize
      = Ok rs ->
      In r rs -> marker r <> Some true ->
      defaultTo1 minimumRangeSize <= endLineNumber r - startLineNumber r)
  /\ (forall (RegExp : Type) (String_match : string -> RegExp -> option (option string))
             (model : ITextModel) (offSide : bool) (pattern : option RegExp)
             (patternIndent minimumRangeSize line : Z) (st : State RegExp)
             (popped : list (PreviousRegion RegExp)) (q : PreviousRegion RegExp)
             (rest : list (PreviousRegion RegExp)) (m : option string),
         getIndentLevel model line <> -1 ->
         lineMatch String_match model pattern patternIndent line
           (getIndentLevel model line) = Some m ->
         truthy m = true ->
         previousRegions st = popped ++ q :: rest ->
         Forall (fun p => 0 <= pr_indent p /\ pr_marker p = None) popped ->
         pr_marker q <> None ->
         step String_match model offSide pattern patternIndent minimumRangeSize line st
         = Ok {| previousRegions :=
                   {| pr_indent := getIndentLevel model line;
                      pr_line := line;
                      pr_marker := None |} :: rest;
                 result :=
                   result st
                   ++ [new_IndentRange line (pr_line q) (getIndentLevel model line)
                         (Some true)] |})
  /\ (forall (RegExp : Type) (RegExp_new : string -> option RegExp)
             (String_match : string -> RegExp -> option (option string))
             (model : ITextModel) (offSide : bool) (markers : option FoldMarkers)
             (min1 min2 : option Z) (rs1 rs2 : list IndentRange),
         computeRanges RegExp_new String_match model offSide markers min1 = Ok rs1 ->
         computeRanges RegExp_new String_match model offSide markers min2 = Ok rs2 ->
         filter (fun r => match marker r with Some true => true | _ => false end) rs1
         = filter (fun r => match marker r with Some true => true | _ => false end) rs2)
  /\ computeRangesLiteral regionBuffer false (Some regionMarkers) (Some 5)
     = Ok [new_IndentRange 1 3 0 (Some true)]
  /\ computeRangesLiteral emptyRegionBuffer false (Some regionMarkers) (Some 5)
     = Ok [new_IndentRange 1 2 0 (Some true)].
Proof.
  split; [| split; [| split; [| split]]].
  - intros RegExp RegExp_new String_match model offSide markers minimumRangeSize rs r
           H Hin Hmarker.
    apply computeRanges_inv in H. destruct H as (Hall & _).
    rewrite Forall_forall in Hall. destruct (Hall r Hin) as (_ & _ & Hmin).
    now apply Hmin.
  - intros RegExp String_match model offSide pattern patternIndent minimumRangeSize
           line st popped q rest m Hblank Hmatch Htruthy Heq Hall Hq.
    apply cases_step.
    now apply case_start_marker_closes with (m := m) (popped := popped) (q := q).
  - intros RegExp RegExp_new String_match model offSide markers min1 min2 rs1 rs2 H1 H2.
    set (lo := Z.min (defaultTo1 min1) (defaultTo1 min2)).
    assert (E1 : computeRanges RegExp_new String_match model offSide markers min1
                 = computeRanges RegExp_new String_match model offSide markers
                     (Some (defaultTo1 min1))) by reflexivity.
    assert (E2 : computeRanges RegExp_new String_match model offSide markers min2
                 = computeRanges RegExp_new String_match model offSide markers
                     (Some (defaultTo1 min2))) by reflexivity.
    rewrite E1 in H1. rewrite E2 in H2.
    rewrite (computeRanges_under_smaller_minimum RegExp RegExp_new String_match model
               offSide markers (defaultTo1 min1) lo) in H1 by (unfold lo; lia).
    rewrite (computeRanges_under_smaller_minimum RegExp RegExp_new String_match model
               offSide markers (defaultTo1 min2) lo) in H2 by (unfold lo; lia).
    destruct (computeRanges RegExp_new String_match model offSide markers (Some lo))
      as [rs |]; [| discriminate H1].
    simpl in H1, H2. injection H1 as <-. injection H2 as <-.
    now rewrite !marker_ranges_pass_keepBySize.
  - reflexivity.
  - reflexivity.
Qed.

Lemma minimum_size_filters_indent_ranges_only_witness :
  defaultTo1 (Some 2)
  <= endLineNumber (new_IndentRange 1 3 0 None) - startLineNumber (new_IndentRange 1 3 0 None)
  /\ step literal_match regionBuffer false (Some regionPattern) (-1) 5 1
       regionBeforeLine1
     = Ok {| previousRegions := [region 0 1; region (-1) 4];
             result := [new_IndentRange 1 3 0 (Some true)] |}
  /\ step literal_match emptyRegionBuffer false (Some regionPattern) (-1) 5 1
       emptyRegionBeforeLine1
     = Ok {| previousRegions := [region 0 1; region (-1) 3];
             result := [new_IndentRange 1 2 0 (Some true)] |}
  /\ filter (fun r => match marker r with Some true => true | _ => false end)
       [new_IndentRange 1 3 0 (Some true)]
     = filter (fun r => match marker r with Some true => true | _ => false end)
         [new_IndentRange 1 3 0 (Some true)].
Proof.
  split; [| split; [| split]].
  - apply (proj1 minimum_size_filters_indent_ranges_only
             LiteralRegExp literal_RegExp_new literal_match
             (indentsModel [0; 1; 1]) false None (Some 2) [new_IndentRange 1 3 0 None]).
    + reflexivity.
    + simpl. left. reflexivity.
    + simpl. discriminate.
  - apply (proj1 (proj2 minimum_size_filters_indent_ranges_only)
             LiteralRegExp literal_match regionBuffer false (Some regionPattern)
             (-1) 5 1 regionBeforeLine1 [region 0 2]
             {| pr_indent := -2; pr_line := 3; pr_marker := Some regionPattern |}
             [region (-1) 4] (Some "#region"%string)).
    + vm_compute. discriminate.
    + reflexivity.
    + reflexivity.
    + reflexivity.
    + constructor; [| constructor]. simpl. split; [lia | reflexivity].
    + simpl. discriminate.
  - apply (proj1 (proj2 minimum_size_filters_indent_ranges_only)
             LiteralRegExp literal_match emptyRegionBuffer false (Some regionPattern)
             (-1) 5 1 emptyRegionBeforeLine1 []
             {| pr_indent := -2; pr_line := 2; pr_marker := Some regionPattern |}
             [region (-1) 3] (Some "#region"%string)).
    + vm_compute. discriminate.
    + reflexivity.
    + reflexivity.
    + reflexivity.
    + constructor.
    + simpl. discriminate.
  - apply (proj1 (proj2 (proj2 minimum_size_filters_indent_ranges_only))
             LiteralRegExp literal_RegExp_new literal_match regionBuffer false
             (Some regionMarkers) (Some 5) None).
    + reflexivity.
    + reflexivity.
Defined.
